(** * Cache-aside group hierarchy: a shallow embedding

    The development follows the TypeScript sources of the service:
    - [redis_helpers]: [getOrSetCache], [clearKeysStartingWith];
    - [fetchGroupHierarchyAbove] and [fetchGroupHierarchyBelow];
    - the person and group controllers ([getPersons], [getGroups],
      [createGroup], [updateGroup], [deleteGroup]).

    Modelling choices.
    - Integers (ids, timestamps) are [Z]; a JavaScript number that holds an
      integer prints in a template literal as its decimal numeral, which is
      stdpp's [pretty] on [Z] (valid below 10^21, where JavaScript switches
      to exponent notation).
    - Strings are Rocq strings (sequences of bytes).
    - A JavaScript value that travels through the cache is modelled as the
      JSON document it serialises to ([json]); Redis holds that document
      together with the time at which the entry expires.
    - An [async] function is a state transformer that may reject and, when
      its recursion is unbounded in the source, is given fuel: [None] stands
      for a call that has not returned within the fuel.
    - The MySQL tables are lists of rows in table order; [WHERE id = ?]
      followed by [[0]] is the first matching row.
    - The controllers open no transaction. [updateGroup] and [updatePerson]
      issue several statements inside one [try]; which of them the server
      rejects is a parameter of the run ([rejects]), and a rejected
      statement is answered 500 by the [catch] with the earlier statements
      committed.
    - The write controllers do not await [clearKeysStartingWith]. The state
      a controller returns is the state at its response: [DEL] of the
      aggregate key has been issued, the prefix clears have not completed.
      [settle_group_clears] and [settle_person_clear] give the state once
      they have.
    - [KEYS] takes a glob-style pattern; [glob_match] follows the matcher of
      the Redis server. *)

From stdpp Require Import gmap strings pretty list.
From Stdlib Require Import ZArith Lia Ascii String.

Set Warnings "-register-all".

Local Open Scope string_scope.
Local Open Scope Z_scope.

(** ** JSON documents *)

Inductive json : Type :=
  | JNull
  | JNum (n : Z)
  | JStr (s : string)
  | JArr (items : list json)
  | JObj (props : list (string * json)).

(** Property lookup [o.k]; [None] is JavaScript's [undefined]. *)
Fixpoint assoc (k : string) (props : list (string * json)) : option json :=
  match props with
  | [] => None
  | (k', v) :: rest => if String.eqb k k' then Some v else assoc k rest
  end.

(** ** Rows of the two tables *)

Record GroupRow := mkGroupRow {
  g_id : Z;
  g_groupName : string;
  g_parentGroupId : option Z;
  g_updatedAt : Z
}.

Record PersonRow := mkPersonRow {
  p_id : Z;
  p_firstName : string;
  p_lastName : string;
  p_jobTitle : string;
  p_groupId : option Z
}.

Record Database := mkDatabase {
  group_table : list GroupRow;
  person_table : list PersonRow
}.

(** ** Filter criteria

    [interface FilterCriteria { jobTitle?: string; firstName?: string }].
    An object is the list of its properties in insertion order, which is the
    order [JSON.stringify] prints them in. *)

Inductive FilterField := jobTitle | firstName.

Definition FilterCriteria := list (FilterField * string).

Definition field_name (f : FilterField) : string :=
  match f with jobTitle => "jobTitle" | firstName => "firstName" end.

Definition field_eqb (f f' : FilterField) : bool :=
  match f, f' with
  | jobTitle, jobTitle | firstName, firstName => true
  | _, _ => false
  end.

(** [criteria.jobTitle], [criteria.firstName] *)
Fixpoint get_field (f : FilterField) (c : FilterCriteria) : option string :=
  match c with
  | [] => None
  | (f', v) :: rest => if field_eqb f f' then Some v else get_field f rest
  end.

(** ** JSON.stringify on a [FilterCriteria[]] *)

Definition dquote : ascii := ascii_of_nat 34.
Definition backslash : ascii := ascii_of_nat 92.

Definition hex_digit (n : nat) : ascii :=
  match String.get n "0123456789abcdef" with
  | Some c => c
  | None => "0"%char
  end.

(** One character of [QuoteJSONString]: the two-character escapes, a
    [\u00xx] escape for the other control characters, the character itself
    otherwise. *)
Definition quote_json_char (c : ascii) : string :=
  let n := nat_of_ascii c in
  if Nat.eqb n 8 then String backslash "b"
  else if Nat.eqb n 9 then String backslash "t"
  else if Nat.eqb n 10 then String backslash "n"
  else if Nat.eqb n 12 then String backslash "f"
  else if Nat.eqb n 13 then String backslash "r"
  else if Nat.eqb n 34 then String backslash (String dquote "")
  else if Nat.eqb n 92 then String backslash (String backslash "")
  else if Nat.ltb n 32 then
    String backslash ("u00" +:+ String (hex_digit (n / 16)) (String (hex_digit (n mod 16)) ""))
  else String c "".

Fixpoint quote_json_chars (s : string) : string :=
  match s with
  | EmptyString => ""
  | String c rest => quote_json_char c +:+ quote_json_chars rest
  end.

Definition quote_json_string (s : string) : string :=
  String dquote (quote_json_chars s +:+ String dquote "").

Fixpoint join (sep : string) (l : list string) : string :=
  match l with
  | [] => ""
  | [x] => x
  | x :: rest => x +:+ sep +:+ join sep rest
  end.

Definition stringify_property (p : FilterField * string) : string :=
  quote_json_string (field_name p.1) +:+ ":" +:+ quote_json_string p.2.

Definition stringify_criteria (c : FilterCriteria) : string :=
  "{" +:+ join "," (map stringify_property c) +:+ "}".

Definition JSON_stringify (filterCriteria : list FilterCriteria) : string :=
  "[" +:+ join "," (map stringify_criteria filterCriteria) +:+ "]".

(** ** Cache keys, as the sources build them *)

(** [`person_id_${id}`], [id] being the query-string parameter *)
Definition person_cacheKey (id : string) : string := "person_id_" +:+ id.

Definition all_persons_cacheKey : string := "all_persons".

Definition all_groups_cacheKey : string := "all_groups".

(** [`group_above_${groupId}}`] *)
Definition above_cacheKey (groupId : Z) : string :=
  "group_above_" +:+ pretty groupId +:+ "}".

(** [`groups_below_${groupId}_${JSON.stringify(filterCriteria)}`] *)
Definition below_cacheKey (groupId : Z) (filterCriteria : list FilterCriteria) : string :=
  "groups_below_" +:+ pretty groupId +:+ "_" +:+ JSON_stringify filterCriteria.

(** ** The state: MySQL, Redis, the clock and a query counter *)

(** A Redis entry: the stored document and the instant it expires at. *)
Abbreviation Entry := (json * Z)%type.

Record State := mkState {
  db : Database;
  redis : gmap string Entry;
  clock : Z;        (* seconds *)
  queries : nat     (* number of [pool.query] calls made so far *)
}.

Definition set_redis (r : gmap string Entry) (st : State) : State :=
  mkState (db st) r (clock st) (queries st).

Definition set_groups (g : list GroupRow) (st : State) : State :=
  mkState (mkDatabase g (person_table (db st))) (redis st) (clock st) (queries st).

Definition count_query (st : State) : State :=
  mkState (db st) (redis st) (clock st) (S (queries st)).

(** Another request changing the tables between two reads. *)
Definition set_db (d : Database) (st : State) : State :=
  mkState d (redis st) (clock st) (queries st).

(** Time passing between two requests. *)
Definition at_time (t : Z) (st : State) : State :=
  mkState (db st) (redis st) t (queries st).

(** *** Redis commands *)

Definition live (now : Z) (e : Entry) : bool := now <? e.2.

(** [GET key]: [None] is the null reply, for a missing or an expired key. *)
Definition redis_get (key : string) (st : State) : option json :=
  match redis st !! key with
  | Some e => if live (clock st) e then Some e.1 else None
  | None => None
  end.

(** [SETEX key seconds value] *)
Definition redis_setex (key : string) (seconds : Z) (value : json) (st : State) : State :=
  set_redis (<[key := (value, clock st + seconds)]> (redis st)) st.

(** [DEL key ...] *)
Definition redis_del (keys : list string) (st : State) : State :=
  set_redis (foldr delete (redis st) keys) st.

(** *** Glob-style patterns, as [KEYS] reads them

    [*] matches any run of characters, [?] one character, [[...]] one
    character of a class (with ranges, [^] for the complement and [\] to
    quote), [\] quotes the next character, and any other character matches
    itself. *)

Definition is_char (n : nat) (c : ascii) : bool := Nat.eqb (nat_of_ascii c) n.

(** The characters [*], [?], [[] and [\]. *)
Definition glob_special (c : ascii) : bool :=
  is_char 42 c || is_char 63 c || is_char 91 c || is_char 92 c.

Fixpoint glob_free (s : string) : bool :=
  match s with
  | EmptyString => true
  | String c rest => negb (glob_special c) && glob_free rest
  end.

(** The body of a class, after [[] and [^]: whether [c] is in the class so
    far, and the pattern that follows the closing bracket. *)
Fixpoint glob_class (p : string) (c : ascii) (matched : bool) : bool * string :=
  match p with
  | EmptyString => (matched, EmptyString)
  | String a p1 =>
      if is_char 92 a then
        match p1 with
        | String b p2 => glob_class p2 c (matched || Ascii.eqb b c)
        | EmptyString => (matched || Ascii.eqb a c, EmptyString)
        end
      else if is_char 93 a then (matched, p1)
      else
        match p1 with
        | String d (String e p3) =>
            if is_char 45 d then
              let lo := Nat.min (nat_of_ascii a) (nat_of_ascii e) in
              let hi := Nat.max (nat_of_ascii a) (nat_of_ascii e) in
              glob_class p3 c
                (matched || (Nat.leb lo (nat_of_ascii c) && Nat.leb (nat_of_ascii c) hi))
            else glob_class p1 c (matched || Ascii.eqb a c)
        | _ => glob_class p1 c (matched || Ascii.eqb a c)
        end
  end.

Fixpoint glob_fuel (fuel : nat) (p s : string) : bool :=
  match fuel with
  | O => false
  | S fuel' =>
      match p with
      | EmptyString => match s with EmptyString => true | String _ _ => false end
      | String a p1 =>
          if is_char 42 a then
            glob_fuel fuel' p1 s ||
            match s with
            | EmptyString => false
            | String _ s1 => glob_fuel fuel' p s1
            end
          else
            match s with
            | EmptyString => false
            | String c s1 =>
                if is_char 63 a then glob_fuel fuel' p1 s1
                else if is_char 91 a then
                  let '(negated, body) :=
                    match p1 with
                    | String x p2 => if is_char 94 x then (true, p2) else (false, p1)
                    | EmptyString => (false, p1)
                    end in
                  let '(matched, rest) := glob_class body c false in
                  if xorb negated matched then glob_fuel fuel' rest s1 else false
                else if is_char 92 a then
                  match p1 with
                  | String b p2 => if Ascii.eqb b c then glob_fuel fuel' p2 s1 else false
                  | EmptyString => if Ascii.eqb a c then glob_fuel fuel' p1 s1 else false
                  end
                else if Ascii.eqb a c then glob_fuel fuel' p1 s1 else false
            end
      end
  end.

(** Every step consumes a character of the pattern or of the key. *)
Definition glob_match (pattern key : string) : bool :=
  glob_fuel (S (String.length pattern + String.length key)) pattern key.

(** [KEYS pattern]; expired keys are not listed. *)
Definition redis_keys (pattern : string) (st : State) : list string :=
  (map_to_list (filter (λ kv, glob_match pattern kv.1 = true ∧ live (clock st) kv.2 = true)
                       (redis st))).*1.

(** *** Outcomes of asynchronous calls *)

Inductive Outcome (A : Type) : Type :=
  | Resolved (a : A)
  | Rejected (e : string).
Arguments Resolved {A} a.
Arguments Rejected {A} e.

Definition Async (A : Type) : Type := State → option (Outcome A * State).

Definition diverge {A} : Async A := λ _, None.

(** ** redis_helpers *)

Definition DEFAULT_EXPIRATION : Z := 3600.

(** [getOrSetCache(key, cb)]: a non-null reply resolves with the parsed
    document; otherwise [cb] runs, its result is stored with [SETEX] and
    resolved. A rejection of [cb] reaches [.catch] before [setex] is
    called. *)
Definition getOrSetCache (key : string) (cb : Async json) : Async json :=
  λ st,
    match redis_get key st with
    | Some data => Some (Resolved data, st)
    | None =>
        match cb st with
        | None => None
        | Some (Resolved freshData, st1) =>
            Some (Resolved freshData, redis_setex key DEFAULT_EXPIRATION freshData st1)
        | Some (Rejected error, st1) => Some (Rejected error, st1)
        end
    end.

(** [clearKeysStartingWith(prefix)], run to its end: [KEYS `${prefix}*`],
    then [DEL] of the keys found when there are any. *)
Definition clearKeysStartingWith (pfx : string) (st : State) : State :=
  let keys := redis_keys (pfx +:+ "*") st in
  if (0 <? List.length keys)%nat then redis_del keys st else st.

(** ** pool.query *)

(** [SELECT ... FROM `group` WHERE id = ?]; a NULL parameter matches no row. *)
Definition groups_by_id (d : Database) (id : option Z) : list GroupRow :=
  match id with
  | Some i => filter (λ r, g_id r = i) (group_table d)
  | None => []
  end.

Definition select_group_by_id (id : option Z) (st : State) : list GroupRow * State :=
  (groups_by_id (db st) id, count_query st).

(** [(rows as RowDataPacket[])[0]] of that query *)
Definition first_group (d : Database) (id : option Z) : option GroupRow :=
  head (groups_by_id d id).

(** [SELECT id, groupName FROM `group` WHERE parentGroupId = ?] *)
Definition child_groups (d : Database) (parent : Z) : list GroupRow :=
  filter (λ r, g_parentGroupId r = Some parent) (group_table d).

Definition select_child_groups (parent : Z) (st : State) : list GroupRow * State :=
  (child_groups (db st) parent, count_query st).

(** [SELECT * FROM `group`] *)
Definition select_all_groups (st : State) : list GroupRow * State :=
  (group_table (db st), count_query st).

Definition person_field (f : FilterField) (p : PersonRow) : string :=
  match f with jobTitle => p_jobTitle p | firstName => p_firstName p end.

(** One [column = ?] condition with its parameter (exact comparison). *)
Definition condition_holds (p : PersonRow) (c : FilterField * string) : bool :=
  String.eqb (person_field c.1 p) c.2.

(** [SELECT ... FROM person WHERE groupId = ? AND c1 = ? AND ...] *)
Definition persons_where (d : Database) (groupId : Z)
    (conditions : list (FilterField * string)) : list PersonRow :=
  filter (λ p, p_groupId p = Some groupId ∧ forallb (condition_holds p) conditions = true)
         (person_table d).

Definition select_persons (groupId : Z) (conditions : list (FilterField * string))
    (st : State) : list PersonRow * State :=
  (persons_where (db st) groupId conditions, count_query st).

(** ** Objects the traversals build *)

Definition error_obj (msg : string) : json := JObj [("error", JStr msg)].

Definition not_found (groupId : Z) : json :=
  error_obj ("Group with ID " +:+ pretty groupId +:+ " not found").

Definition above_obj (id : Z) (groupName : string) (parentGroup : list json) : json :=
  JObj [("id", JNum id); ("groupName", JStr groupName); ("parentGroup", JArr parentGroup)].

Definition person_obj (p : PersonRow) : json :=
  JObj [("id", JNum (p_id p)); ("firstName", JStr (p_firstName p));
        ("lastName", JStr (p_lastName p)); ("jobTitle", JStr (p_jobTitle p))].

Definition below_obj (id : Z) (groupName : string) (persons groups : list json) : json :=
  JObj [("id", JNum id); ("groupName", JStr groupName);
        ("persons", JArr persons); ("groups", JArr groups)].

(** ** fetchGroupHierarchyAbove *)

(** [fetchparentGroupRecursive(currentGroupId, currentGroup)]: the result is
    what the call pushes onto [currentGroup.parentGroup]. *)
Fixpoint fetchparentGroupRecursive (fuel : nat) (currentGroupId : Z) (st : State)
    : option (list json * State) :=
  match fuel with
  | O => None
  | S fuel' =>
      let '(currentGroupResult, st1) := select_group_by_id (Some currentGroupId) st in
      match head currentGroupResult with
      | None => Some ([], st1)
      | Some currentGroupRow =>
          let '(parentGroupResult, st2) :=
            select_group_by_id (g_parentGroupId currentGroupRow) st1 in
          match head parentGroupResult with
          | None => Some ([], st2)
          | Some parentGroupRow =>
              match fetchparentGroupRecursive fuel' (g_id parentGroupRow) st2 with
              | None => None
              | Some (pushed, st3) =>
                  Some ([above_obj (g_id parentGroupRow) (g_groupName parentGroupRow) pushed],
                        st3)
              end
          end
      end
  end.

Definition above_compute (fuel : nat) (groupId : Z) : Async json :=
  λ st,
    let '(groupResult, st1) := select_group_by_id (Some groupId) st in
    match head groupResult with
    | None => Some (Resolved (not_found groupId), st1)
    | Some groupRow =>
        match fetchparentGroupRecursive fuel groupId st1 with
        | None => None
        | Some (pushed, st2) =>
            Some (Resolved (above_obj (g_id groupRow) (g_groupName groupRow) pushed), st2)
        end
    end.

Definition fetchGroupHierarchyAbove (fuel : nat) (groupId : Z) : Async json :=
  getOrSetCache (above_cacheKey groupId) (above_compute fuel groupId).

(** ** fetchGroupHierarchyBelow *)

(** A string is truthy when it is not empty; [undefined] is falsy. *)
Definition truthy (v : option string) : bool :=
  match v with
  | Some s => negb (String.eqb s "")
  | None => false
  end.

(** The [forEach] that fills [conditions] and [params]. *)
Definition criteria_conditions (criteria : FilterCriteria) : list (FilterField * string) :=
  (match get_field jobTitle criteria with
   | Some v => if truthy (Some v) then [(jobTitle, v)] else []
   | None => []
   end) ++
  (match get_field firstName criteria with
   | Some v => if truthy (Some v) then [(firstName, v)] else []
   | None => []
   end).

Definition conditions_of (filterCriteria : list FilterCriteria) : list (FilterField * string) :=
  List.concat (map criteria_conditions filterCriteria).

(** ["error" in x]: [None] is the TypeError raised on a primitive. *)
Definition has_error (x : json) : option bool :=
  match x with
  | JObj props => Some (bool_decide (is_Some (assoc "error" props)))
  | JArr _ => Some false
  | _ => None
  end.

(** [x.k] on a value that passed the [in] test. *)
Definition get_prop (k : string) (x : json) : option json :=
  match x with
  | JObj props => assoc k props
  | _ => None
  end.

(** A property whose value is [undefined] is dropped by serialisation. *)
Definition opt_prop (k : string) (v : option json) : list (string * json) :=
  match v with
  | Some j => [(k, j)]
  | None => []
  end.

(** The object pushed onto [group.groups] for one child. *)
Definition child_obj (childGroupRow : GroupRow) (childGroup : json) : json :=
  JObj ([("id", JNum (g_id childGroupRow)); ("groupName", JStr (g_groupName childGroupRow))]
        ++ opt_prop "persons" (get_prop "persons" childGroup)
        ++ opt_prop "groups" (get_prop "groups" childGroup))%list.

(** The [for ... of childGroups] loop: [inl] is the early [return] of a
    child's error object, [inr] the filled [group.groups]. *)
Fixpoint child_loop (rec : Z → Async json) (childGroups : list GroupRow)
    (groups : list json) : Async (json + list json) :=
  λ st,
    match childGroups with
    | [] => Some (Resolved (inr groups), st)
    | childGroupRow :: rest =>
        match rec (g_id childGroupRow) st with
        | None => None
        | Some (Rejected e, st1) => Some (Rejected e, st1)
        | Some (Resolved childGroupOrError, st1) =>
            match has_error childGroupOrError with
            | None => Some (Rejected "TypeError", st1)
            | Some true => Some (Resolved (inl childGroupOrError), st1)
            | Some false =>
                child_loop rec rest (groups ++ [child_obj childGroupRow childGroupOrError])%list st1
            end
        end
    end.

Definition below_compute (rec : Z → Async json) (groupId : Z)
    (filterCriteria : list FilterCriteria) : Async json :=
  λ st,
    let '(groupResult, st1) := select_group_by_id (Some groupId) st in
    match head groupResult with
    | None => Some (Resolved (not_found groupId), st1)
    | Some groupRow =>
        let '(persons, st2) := select_persons groupId (conditions_of filterCriteria) st1 in
        let '(childGroups, st3) := select_child_groups groupId st2 in
        match child_loop rec childGroups [] st3 with
        | None => None
        | Some (Rejected e, st4) => Some (Rejected e, st4)
        | Some (Resolved (inl childError), st4) => Some (Resolved childError, st4)
        | Some (Resolved (inr groups), st4) =>
            Some (Resolved (below_obj groupId (g_groupName groupRow)
                                      (map person_obj persons) groups), st4)
        end
    end.

(** The fuel bounds the depth of the recursion through the children. *)
Fixpoint fetchGroupHierarchyBelow (fuel : nat) (groupId : Z)
    (filterCriteria : list FilterCriteria) : Async json :=
  getOrSetCache (below_cacheKey groupId filterCriteria)
    (below_compute
       (match fuel with
        | O => λ _, diverge
        | S fuel' => λ childId, fetchGroupHierarchyBelow fuel' childId filterCriteria
        end)
       groupId filterCriteria).

(** ** The group controller *)

Record Response := Res { status : nat; body : json }.

Definition message_obj (msg : string) : json := JObj [("message", JStr msg)].

(** [SELECT * FROM `group`] rows as sent to the client *)
Definition opt_num (v : option Z) : json :=
  match v with Some n => JNum n | None => JNull end.

Definition group_row_obj (r : GroupRow) : json :=
  JObj [("id", JNum (g_id r)); ("groupName", JStr (g_groupName r));
        ("parentGroupId", opt_num (g_parentGroupId r)); ("updatedAt", JNum (g_updatedAt r))].

(** The callback of [getGroups] without an id. *)
Definition all_groups_compute : Async json :=
  λ st,
    let '(groupsData, st1) := select_all_groups st in
    if (List.length groupsData =? 0)%nat
    then Some (Rejected "There are no groups.", st1)
    else Some (Resolved (JArr (map group_row_obj groupsData)), st1).

(** [getGroups] without an id: the [catch] turns a rejection into a 500. *)
Definition getGroups_all (st : State) : option (Response * State) :=
  match getOrSetCache all_groups_cacheKey all_groups_compute st with
  | None => None
  | Some (Resolved groupsData, st1) => Some (Res 200 groupsData, st1)
  | Some (Rejected _, st1) => Some (Res 500 (error_obj "Internal server error."), st1)
  end.

(** Every group write ends with [redisClient.del("all_groups")] and two
    calls of [clearKeysStartingWith] that it does not await: the response is
    sent once [DEL all_groups] has been issued, and the two clears complete
    afterwards. [settle_group_clears] is their effect on the state they
    complete in. *)
Definition settle_group_clears (st : State) : State :=
  clearKeysStartingWith "groups_above_" (clearKeysStartingWith "groups_below_" st).

(** The invalidation of a group write once its clears have completed, no
    other command having run in between. *)
Definition clear_group_caches (st : State) : State :=
  settle_group_clears (redis_del ["all_groups"] st).

(** [UPDATE `group` SET ... WHERE id = ?]; a NULL parameter matches no row. *)
Definition update_group_where_id (id : option Z) (f : GroupRow → GroupRow) (st : State) : State :=
  count_query
    (set_groups (map (λ r, if bool_decide (Some (g_id r) = id) then f r else r)
                     (group_table (db st))) st).

(** [INSERT INTO `group` (groupName, parentGroupId) VALUES (?, ?)]; the id is
    the one the table assigns, taken here as one more than the largest id. *)
Definition next_group_id (groups : list GroupRow) : Z :=
  1 + foldr Z.max 0 (map g_id groups).

Definition insert_group (groupName : string) (parentGroupId : option Z) (st : State) : State :=
  count_query
    (set_groups (group_table (db st) ++
                 [mkGroupRow (next_group_id (group_table (db st))) groupName parentGroupId
                             (clock st)])%list st).

(** [DELETE FROM `group` WHERE id = ?] *)
Definition delete_group (id : Z) (st : State) : State :=
  count_query (set_groups (filter (λ r, g_id r ≠ id) (group_table (db st))) st).

Definition createGroup (groupName : string) (parentGroupId : option Z) (st : State)
    : Response * State :=
  let st1 := insert_group groupName parentGroupId st in
  (Res 200 (message_obj "Group created successfully!"), redis_del ["all_groups"] st1).

Definition deleteGroup (id : Z) (st : State) : Response * State :=
  let st1 := delete_group id st in
  (Res 200 (message_obj "Group deleted successfully!"), redis_del ["all_groups"] st1).

(** *** createPerson (person controller) *)

Definition set_persons (ps : list PersonRow) (st : State) : State :=
  mkState (mkDatabase (group_table (db st)) ps) (redis st) (clock st) (queries st).

(** [INSERT INTO person (firstName, lastName, jobTitle, groupId) VALUES ...] *)
Definition insert_person (firstName lastName jobTitle : string) (groupId : option Z)
    (st : State) : State :=
  count_query
    (set_persons (person_table (db st) ++
                  [mkPersonRow (1 + foldr Z.max 0 (map p_id (person_table (db st))))
                               firstName lastName jobTitle groupId])%list st).

Definition createPerson (firstName lastName jobTitle : string) (groupId : option Z)
    (st : State) : Response * State :=
  let st1 := insert_person firstName lastName jobTitle groupId st in
  (Res 200 (message_obj "Person created successfully!"), redis_del ["all_persons"] st1).

(** *** updateGroup *)

(** [parentGroupId] of the request body: absent, [null], a number, or a
    string of digits (given by the number it denotes). *)
Inductive BodyId :=
  | Undefined
  | Null
  | NumberId (n : Z)
  | StringId (n : Z).

(** [Number(parentGroupId)] *)
Definition Number (v : BodyId) : Z :=
  match v with
  | Undefined | Null => 0
  | NumberId n | StringId n => n
  end.

(** The value bound to a [?] placeholder. *)
Definition sql_param (v : BodyId) : option Z :=
  match v with
  | Undefined | Null => None
  | NumberId n | StringId n => Some n
  end.

(** [parentGroupId === currentGroupId], the right-hand side being a number *)
Definition strict_eq_number (v : BodyId) (n : Z) : bool :=
  match v with
  | NumberId m => bool_decide (m = n)
  | _ => false
  end.

(** One recursive step of the common table expression: the rows [g] joined
    to a row [d] of the previous step on [d.id = g.parentGroupId]. *)
Definition cte_step (groups level : list GroupRow) : list GroupRow :=
  flat_map (λ d, filter (λ g, g_parentGroupId g = Some (g_id d)) groups) level.

(** [WITH RECURSIVE Descendants ...]: steps are added ([UNION ALL]) until one
    is empty; the server aborts the statement after [depth] steps. *)
Fixpoint cte_iterate (depth : nat) (groups level : list GroupRow) : option (list GroupRow) :=
  match level with
  | [] => Some []
  | _ :: _ =>
      match depth with
      | O => None
      | S depth' => app level <$> cte_iterate depth' groups (cte_step groups level)
      end
  end.

(** A run in which the server rejects no statement. *)
Definition no_fault : nat → bool := λ _, false.

Section UpdateGroup.
(** The server's [cte_max_recursion_depth]. *)
Variable cte_max_recursion_depth : nat.

Definition descendantQuery (groupId : Z) (st : State) : option (list GroupRow) * State :=
  (cte_iterate cte_max_recursion_depth (group_table (db st))
     (filter (λ r, g_id r = groupId) (group_table (db st))),
   count_query st).

Inductive Assignment :=
  | SetGroupName (v : string)
  | SetParentGroupId (v : option Z).

Definition assign (a : Assignment) (r : GroupRow) : GroupRow :=
  match a with
  | SetGroupName v => mkGroupRow (g_id r) v (g_parentGroupId r) (g_updatedAt r)
  | SetParentGroupId v => mkGroupRow (g_id r) (g_groupName r) v (g_updatedAt r)
  end.

(** The statements of [updateGroup], numbered in the order of the text:
    0 the SELECT of the group, 1 the descendant query, 2 the UPDATE that
    detaches the group, 3 the UPDATE of the new parent's [updatedAt], 4 the
    final UPDATE. [rejects k] tells whether statement [k] is rejected by the
    server in this run; a rejected statement changes nothing and is caught
    by the [catch], which answers 500. The statements before it are
    committed: the controller opens no transaction. *)
Definition internal_error : Response := Res 500 (error_obj "Internal server error").

(** The part of [updateGroup] after the circular-reference check. *)
Definition updateGroup_apply (rejects : nat → bool) (id : Z) (groupName : option string)
    (parentGroupId : BodyId) (existing : GroupRow) (st : State) : Response * State :=
  let updateFields := if truthy groupName then [SetGroupName (default "" groupName)] else [] in
  let after_parent :=
    match parentGroupId with
    | Undefined => inr (updateFields, st)
    | _ =>
        let currentGroupId := g_id existing in
        if strict_eq_number parentGroupId currentGroupId
        then inl (Res 400 (error_obj "Error updating group."), st)
        else if rejects 2%nat then inl (internal_error, count_query st)
        else
          let st1 := update_group_where_id (Some currentGroupId)
                       (assign (SetParentGroupId None)) st in
          if rejects 3%nat then inl (internal_error, count_query st1)
          else
            let st2 := update_group_where_id (sql_param parentGroupId)
                         (λ r, mkGroupRow (g_id r) (g_groupName r) (g_parentGroupId r)
                                          (clock st1))
                         st1 in
            inr ((updateFields ++ [SetParentGroupId (sql_param parentGroupId)])%list, st2)
    end in
  match after_parent with
  | inl early => early
  | inr (fields, st2) =>
      if (List.length fields =? 0)%nat
      then (Res 400 (error_obj "No fields to update."), st2)
      else if rejects 4%nat then (internal_error, count_query st2)
      else
        let st3 := update_group_where_id (Some id) (λ r, foldl (λ r a, assign a r) r fields) st2 in
        (Res 200 (message_obj "Group updated successfully!"), redis_del ["all_groups"] st3)
  end.

(** [updateGroup]; the state of the result is the state at the response,
    with the two clears of a successful update still to complete
    ([settle_group_clears]). *)
Definition updateGroup (rejects : nat → bool) (id : Z) (groupName : option string)
    (parentGroupId : BodyId) (st : State) : Response * State :=
  if rejects 0%nat then (internal_error, count_query st)
  else
    let '(existingGroupData, st1) := select_group_by_id (Some id) st in
    match head existingGroupData with
    | None => (Res 404 (error_obj "Group not found."), st1)
    | Some existing =>
        match parentGroupId with
        | Undefined => updateGroup_apply rejects id groupName parentGroupId existing st1
        | _ =>
            let groupId := g_id existing in
            if rejects 1%nat then (internal_error, count_query st1)
            else
              let '(descendants, st2) := descendantQuery groupId st1 in
              match descendants with
              | None => (internal_error, st2)
              | Some rows =>
                  let descendantIds := map g_id rows in
                  if bool_decide (Number parentGroupId ∈ descendantIds)
                  then (Res 400 (error_obj "Circular reference detected."), st2)
                  else updateGroup_apply rejects id groupName parentGroupId existing st2
              end
        end
    end.
End UpdateGroup.

(** *** getGroups with an id *)

(** The [filterCriteria] array [getGroups] builds from the query string. *)
Definition route_filterCriteria (jobTitle_q firstName_q : option string)
    : list FilterCriteria :=
  ((if truthy jobTitle_q then [[(jobTitle, default "" jobTitle_q)]] else []) ++
   (if truthy firstName_q then [[(firstName, default "" firstName_q)]] else []))%list.

(** [getGroups] with an id ([parseInt(id)] given as the integer it yields):
    404 with the error of an error object, the hierarchy otherwise; the
    [catch] answers 500. *)
Definition getGroups_by_id (fuel : nat) (id : Z) (jobTitle_q firstName_q : option string)
    (st : State) : option (Response * State) :=
  match fetchGroupHierarchyBelow fuel id (route_filterCriteria jobTitle_q firstName_q) st with
  | None => None
  | Some (Rejected _, st1) => Some (Res 500 (error_obj "Internal server error"), st1)
  | Some (Resolved groupHierarchy, st1) =>
      match has_error groupHierarchy with
      | None => Some (Res 500 (error_obj "Internal server error"), st1)
      | Some true =>
          Some (Res 404 (JObj (opt_prop "error" (get_prop "error" groupHierarchy))), st1)
      | Some false => Some (Res 200 groupHierarchy, st1)
      end
  end.

(** *** The person controller *)

Definition person_row_obj (p : PersonRow) : json :=
  JObj [("id", JNum (p_id p)); ("firstName", JStr (p_firstName p));
        ("lastName", JStr (p_lastName p)); ("jobTitle", JStr (p_jobTitle p));
        ("groupId", opt_num (p_groupId p))].

Definition persons_by_id (d : Database) (id : option Z) : list PersonRow :=
  match id with
  | Some i => filter (λ p, p_id p = i) (person_table d)
  | None => []
  end.

(** [groupId] is truthy: not [null], not the number 0, any string of digits. *)
Definition truthy_id (v : BodyId) : bool :=
  match v with
  | Undefined | Null => false
  | NumberId n => negb (n =? 0)
  | StringId _ => true
  end.

Inductive PersonAssignment :=
  | SetFirstName (v : string)
  | SetLastName (v : string)
  | SetJobTitle (v : string)
  | SetGroupId (v : option Z).

Definition assign_person (a : PersonAssignment) (p : PersonRow) : PersonRow :=
  match a with
  | SetFirstName v => mkPersonRow (p_id p) v (p_lastName p) (p_jobTitle p) (p_groupId p)
  | SetLastName v => mkPersonRow (p_id p) (p_firstName p) v (p_jobTitle p) (p_groupId p)
  | SetJobTitle v => mkPersonRow (p_id p) (p_firstName p) (p_lastName p) v (p_groupId p)
  | SetGroupId v => mkPersonRow (p_id p) (p_firstName p) (p_lastName p) (p_jobTitle p) v
  end.

(** [UPDATE `group` SET updatedAt = CURRENT_TIMESTAMP WHERE id = ?] *)
Definition touch_group (id : option Z) (st : State) : State :=
  update_group_where_id id
    (λ r, mkGroupRow (g_id r) (g_groupName r) (g_parentGroupId r) (clock st)) st.

(** The clear of [person_id_<id>] that [updatePerson] and [deletePerson]
    start and do not await, on the state it completes in. *)
Definition settle_person_clear (id : string) (st : State) : State :=
  clearKeysStartingWith (person_cacheKey id) st.

Section PersonController.
(** The integer MySQL reads from the [id] of the query string when it
    compares it with the [id] column; [None] when it is no integer. *)
Variable sql_number : string → option Z.

(** [SELECT ... FROM person WHERE id = ?] *)
Definition select_person_by_id (id : string) (st : State) : list PersonRow * State :=
  (persons_by_id (db st) (sql_number id), count_query st).

(** [SELECT * FROM person] *)
Definition select_all_persons (st : State) : list PersonRow * State :=
  (person_table (db st), count_query st).

(** The callback of [getPersons] with an id. *)
Definition person_compute (id : string) : Async json :=
  λ st,
    let '(personRow, st1) := select_person_by_id id st in
    if (List.length personRow =? 0)%nat
    then Some (Rejected "Person not found.", st1)
    else Some (Resolved (JArr (map person_row_obj personRow)), st1).

(** The callback of [getPersons] without an id. *)
Definition all_persons_compute : Async json :=
  λ st,
    let '(personsRows, st1) := select_all_persons st in
    if (List.length personsRows =? 0)%nat
    then Some (Rejected "Person not found.", st1)
    else Some (Resolved (JArr (map person_row_obj personsRows)), st1).

Definition getPersons (id : option string) (st : State) : option (Response * State) :=
  let answer (r : option (Outcome json * State)) :=
    match r with
    | None => None
    | Some (Resolved data, st1) => Some (Res 200 data, st1)
    | Some (Rejected _, st1) => Some (Res 500 (error_obj "Internal server error"), st1)
    end in
  if truthy id
  then answer (getOrSetCache (person_cacheKey (default "" id))
                 (person_compute (default "" id)) st)
  else answer (getOrSetCache all_persons_cacheKey all_persons_compute st).

(** [DELETE FROM person WHERE id = ?] *)
Definition delete_person (id : string) (st : State) : State :=
  count_query
    (set_persons (filter (λ p, Some (p_id p) ≠ sql_number id) (person_table (db st))) st).

(** [deletePerson]; the state of the result is the state at the response:
    [DEL all_persons] has been issued, the clear of [person_id_<id>] is
    still to complete ([settle_person_clear]). *)
Definition deletePerson (id : string) (st : State) : Response * State :=
  let st1 := delete_person id st in
  (Res 200 (message_obj "Person deleted successfully!"), redis_del ["all_persons"] st1).

(** [UPDATE person SET ... WHERE id = ?] *)
Definition update_person_where_id (id : string) (f : PersonRow → PersonRow) (st : State)
    : State :=
  count_query
    (set_persons (map (λ p, if bool_decide (Some (p_id p) = sql_number id) then f p else p)
                      (person_table (db st))) st).

(** [updatePerson]. Its statements are numbered in the order of the text: 0
    the SELECT of the person, 1 the UPDATE of the current group's
    [updatedAt], 2 the UPDATE of the new group's, 3 the final UPDATE;
    [rejects k] tells whether the server rejects statement [k], which the
    [catch] answers with 500, the statements before it being committed. The
    state of the result is the state at the response, the clear of
    [person_id_<id>] still to complete. *)
Definition updatePerson (rejects : nat → bool) (id : string)
    (firstName_b lastName_b jobTitle_b : option string)
    (groupId : BodyId) (st : State) : Response * State :=
  if rejects 0%nat then (internal_error, count_query st)
  else
    let '(existingPersonData, st1) := select_person_by_id id st in
    match head existingPersonData with
    | None => (Res 404 (error_obj "Person not found."), st1)
    | Some existing =>
        let updateFields :=
          ((if truthy firstName_b then [SetFirstName (default "" firstName_b)] else []) ++
           (if truthy lastName_b then [SetLastName (default "" lastName_b)] else []) ++
           (if truthy jobTitle_b then [SetJobTitle (default "" jobTitle_b)] else []))%list in
        let after_group :=
          match groupId with
          | Undefined => inr (updateFields, st1)
          | _ =>
              let currentGroupId := p_groupId existing in
              if rejects 1%nat then inl (internal_error, count_query st1)
              else
                let st' := touch_group currentGroupId st1 in
                let fields := (updateFields ++ [SetGroupId (sql_param groupId)])%list in
                if truthy_id groupId
                then if rejects 2%nat then inl (internal_error, count_query st')
                     else inr (fields, touch_group (sql_param groupId) st')
                else inr (fields, st')
          end in
        match after_group with
        | inl early => early
        | inr (updateFields, st2) =>
            if (List.length updateFields =? 0)%nat
            then (Res 400 (error_obj "No fields to update."), st2)
            else if rejects 3%nat then (internal_error, count_query st2)
            else
              let st3 := update_person_where_id id
                           (λ p, foldl (λ p a, assign_person a p) p updateFields) st2 in
              (Res 200 (message_obj "Person updated successfully!"),
               redis_del ["all_persons"] st3)
        end
    end.

(** [getGroupsAbove]: the ancestors of the group of a person. *)
Definition getGroupsAbove (fuel : nat) (id : string) (st : State)
    : option (Response * State) :=
  let '(personData, st1) := select_person_by_id id st in
  match head personData with
  | None => Some (Res 404 (error_obj "Person not found."), st1)
  | Some person =>
      match p_groupId person with
      | None => Some (Res 404 (error_obj "No group associated with the person."), st1)
      | Some groupId =>
          match fetchGroupHierarchyAbove fuel groupId st1 with
          | None => None
          | Some (Resolved groupsHierarchy, st2) => Some (Res 200 groupsHierarchy, st2)
          | Some (Rejected _, st2) => None   (* rethrown: no response is sent *)
          end
      end
  end.
End PersonController.

(** ** Relations the properties are stated with *)

(** Two states that differ at most by the query counter. *)
Definition same_but_queries (st st' : State) : Prop :=
  db st' = db st ∧ redis st' = redis st ∧ clock st' = clock st.

(** The descendants of group [a]: [a] itself when it has a row, and every
    row whose parent pointer names a descendant. *)
Inductive Descendant (groups : list GroupRow) (a : Z) : Z → Prop :=
  | desc_self r :
      r ∈ groups → g_id r = a → Descendant groups a a
  | desc_child d g :
      Descendant groups a d → g ∈ groups → g_parentGroupId g = Some d →
      Descendant groups a (g_id g).

(** *** The descendant traversal *)

(** The function [fetchGroupHierarchyBelow] calls on a child, for a given
    fuel. *)
Definition below_rec (fuel : nat) (filterCriteria : list FilterCriteria) : Z → Async json :=
  match fuel with
  | O => λ _, diverge
  | S fuel' => λ childId, fetchGroupHierarchyBelow fuel' childId filterCriteria
  end.

(** The traversal with the cache taken out: what [below_compute] resolves
    with when every recursive call is computed on the tables [d]. *)
Fixpoint subtree_children (rec : Z → option json) (childGroups : list GroupRow)
    (groups : list json) : option (json + list json) :=
  match childGroups with
  | [] => Some (inr groups)
  | childGroupRow :: rest =>
      match rec (g_id childGroupRow) with
      | None => None
      | Some childGroupOrError =>
          match has_error childGroupOrError with
          | None => None
          | Some true => Some (inl childGroupOrError)
          | Some false =>
              subtree_children rec rest
                (groups ++ [child_obj childGroupRow childGroupOrError])%list
          end
      end
  end.

Definition subtree_step (rec : Z → option json) (d : Database)
    (filterCriteria : list FilterCriteria) (groupId : Z) : option json :=
  match first_group d (Some groupId) with
  | None => Some (not_found groupId)
  | Some groupRow =>
      match subtree_children rec (child_groups d groupId) [] with
      | None => None
      | Some (inl childError) => Some childError
      | Some (inr groups) =>
          Some (below_obj groupId (g_groupName groupRow)
                  (map person_obj (persons_where d groupId (conditions_of filterCriteria)))
                  groups)
      end
  end.

Fixpoint subtree (fuel : nat) (d : Database) (filterCriteria : list FilterCriteria)
    (groupId : Z) : option json :=
  subtree_step
    (match fuel with
     | O => λ _, None
     | S fuel' => subtree fuel' d filterCriteria
     end)
    d filterCriteria groupId.

Definition subtree_rec (fuel : nat) (d : Database) (filterCriteria : list FilterCriteria)
    : Z → option json :=
  match fuel with
  | O => λ _, None
  | S fuel' => subtree fuel' d filterCriteria
  end.

(** A cache whose live subtree entries for the filters [f] hold what the
    traversal computes on the current tables; an empty cache is one. *)
Definition coherent (f : list FilterCriteria) (st : State) : Prop :=
  ∀ id j, redis_get (below_cacheKey id f) st = Some j →
          ∃ fuel, subtree fuel (db st) f id = Some j.

(** A call on a child agrees with the traversal on the tables and keeps the
    cache coherent. *)
Definition refines (d : Database) (f : list FilterCriteria)
    (rec_code : Z → Async json) (rec_spec : Z → option json) : Prop :=
  ∀ id j st, db st = d → coherent f st → rec_spec id = Some j →
    ∃ st', rec_code id st = Some (Resolved j, st') ∧ db st' = d ∧ coherent f st'.

(** Parent pointers strictly increase a rank: the tables hold no cycle. *)
Definition ranked (rank : Z → nat) (groups : list GroupRow) : Prop :=
  ∀ g p, g ∈ groups → g_parentGroupId g = Some p → (rank (g_id g) < rank p)%nat.

(** [node.groups] *)
Definition groups_items (node : json) : list json :=
  match get_prop "groups" node with
  | Some (JArr items) => items
  | _ => []
  end.

(** The levels of a subtree result. *)
Inductive SubReaches : json → json → Prop :=
  | sub_here n : SubReaches n n
  | sub_down n c m : c ∈ groups_items n → SubReaches c m → SubReaches n m.


(** The same, leaving out the predicates whose value is the empty string. *)
Definition satisfies_nonempty_predicates (filters : list FilterCriteria) (p : PersonRow)
    : bool :=
  forallb (λ c, forallb (λ fld, match get_field fld c with
                               | Some v => String.eqb v "" || String.eqb (person_field fld p) v
                               | None => true
                               end) [jobTitle; firstName]) filters.

(** The persons directly assigned to a group that satisfy the filters. *)
Definition assigned_persons (d : Database) (matches : PersonRow → bool) (groupId : Z)
    : list PersonRow :=
  filter (λ p, p_groupId p = Some groupId ∧ matches p = true) (person_table d).

(** A level of a subtree result carries the id of its group and, as its
    persons, the persons directly assigned to that group that satisfy the
    predicates with a non-empty value. *)
Definition LevelOK (d : Database) (f : list FilterCriteria) (m : json) : Prop :=
  ∃ id, get_prop "id" m = Some (JNum id) ∧
        get_prop "persons" m =
          Some (JArr (map person_obj
                        (assigned_persons d (satisfies_nonempty_predicates f) id))).







(** The part of a group row a traversal reads. *)
Definition group_shape (r : GroupRow) : Z * string * option Z :=
  (g_id r, g_groupName r, g_parentGroupId r).

(** What a subtree read may change: the query counter and the keys of the
    subtree key space. *)
Definition below_frame (st st' : State) : Prop :=
  db st' = db st ∧ clock st' = clock st ∧ (queries st ≤ queries st')%nat ∧
  ∀ key, String.prefix "groups_below_" key = false → redis st' !! key = redis st !! key.

(** In this state a subtree read returns what the traversal computes on the
    tables of the state, for every group, filter sequence and sufficient
    fuel, whenever the tables hold no cycle. *)
Definition reads_fresh_subtrees (st : State) : Prop :=
  ∀ (rank : Z → nat) g f fuel,
    ranked rank (group_table (db st)) → (rank g ≤ fuel)%nat →
    ∃ node st', fetchGroupHierarchyBelow fuel g f st = Some (Resolved node, st') ∧
                subtree fuel (db st) f g = Some node.

Definition demo_rank (id : Z) : nat := if id =? 1 then 1%nat else 0%nat.

(** A table with a cycle: each group is the parent of the other. *)
Definition cyclic_db : Database :=
  mkDatabase [mkGroupRow 1 "A" (Some 2) 0; mkGroupRow 2 "B" (Some 1) 0] [].

(** A chain of three groups: 3 under 2 under 1. *)
Definition deep_db : Database :=
  mkDatabase [mkGroupRow 1 "Top" None 0; mkGroupRow 2 "Middle" (Some 1) 0;
              mkGroupRow 3 "Bottom" (Some 2) 0] [].

Definition deep_st : State := mkState deep_db ∅ 100 0.

(** ** A small organisation used in the examples *)

Definition demo_db : Database :=
  mkDatabase [mkGroupRow 1 "Root" None 0; mkGroupRow 2 "Child" (Some 1) 0;
              mkGroupRow 3 "Other" None 0]
             [mkPersonRow 7 "Alice" "A" "eng" (Some 2);
              mkPersonRow 8 "Bob" "B" "sales" (Some 2)].

Definition demo_st : State := mkState demo_db ∅ 100 0.


(** The state of a call that returned. *)
Definition state_after {A} (r : option (Outcome A * State)) (dflt : State) : State :=
  match r with
  | Some (_, st) => st
  | None => dflt
  end.

(* ===================================================================== *)
(** * Properties *)
(* ===================================================================== *)

(** ** Strings *)

Lemma append_cons c s t : String c s +:+ t = String c (s +:+ t).
Proof. reflexivity. Qed.

Lemma length_append s t :
  String.length (s +:+ t) = (String.length s + String.length t)%nat.
Proof.
  induction s as [|c s IH]; [reflexivity|].
  rewrite append_cons. cbn [String.length]. by rewrite IH.
Qed.

Lemma append_ne_self s t : t ≠ "" → s +:+ t ≠ s.
Proof.
  intros Ht Heq. apply (f_equal String.length) in Heq.
  rewrite length_append in Heq.
  destruct t; [done|]. cbn [String.length] in Heq. lia.
Qed.

Lemma prefix_append s t : String.prefix s (s +:+ t) = true.
Proof.
  induction s as [|c s IH]; [by destruct t|].
  rewrite append_cons. cbn. by destruct (ascii_dec c c).
Qed.

Lemma append_assoc s t u : (s +:+ t) +:+ u = s +:+ t +:+ u.
Proof. induction s as [|c s IH]; [done|]. by rewrite !append_cons, IH. Qed.

(** Right cancellation of concatenation. *)
Lemma append_inj_r s1 s2 t : s1 +:+ t = s2 +:+ t → s1 = s2.
Proof.
  revert s2. induction s1 as [|c s1 IH]; intros [|d s2] H.
  - done.
  - exfalso. apply (f_equal String.length) in H.
    rewrite append_cons in H. cbn [String.length] in H.
    rewrite !length_append in H. cbn [String.length] in H. lia.
  - exfalso. apply (f_equal String.length) in H.
    rewrite append_cons in H. cbn [String.length] in H.
    rewrite !length_append in H. cbn [String.length] in H. lia.
  - rewrite !append_cons in H. injection H as -> H. f_equal. by apply IH.
Qed.

(** ** Cache keys *)

Lemma above_cacheKey_inj : Inj (=) (=) above_cacheKey.
Proof.
  intros g1 g2 H. unfold above_cacheKey in H.
  apply (inj (String.app _)) in H. apply append_inj_r in H.
  by apply (inj pretty) in H.
Qed.

(** For one filter sequence, distinct groups have distinct subtree keys. *)
Lemma below_cacheKey_inj f : Inj (=) (=) (λ g, below_cacheKey g f).
Proof.
  intros g1 g2 H. unfold below_cacheKey in H.
  apply (inj (String.app _)) in H. apply append_inj_r in H.
  by apply (inj pretty) in H.
Qed.

(** The shapes that are reproduced exactly. *)
Lemma other_key_shapes :
  (∀ id, person_cacheKey id = "person_id_" +:+ id) ∧
  all_persons_cacheKey = "all_persons" ∧
  all_groups_cacheKey = "all_groups" ∧
  (∀ g f, below_cacheKey g f = "groups_below_" +:+ pretty g +:+ "_" +:+ JSON_stringify f).
Proof. done. Qed.

Example JSON_stringify_example :
  JSON_stringify [[(jobTitle, "eng")]; [(firstName, "Al")]] =
  "[{" +:+ String dquote "jobTitle" +:+ String dquote ":" +:+ String dquote "eng"
       +:+ String dquote "},{" +:+ String dquote "firstName" +:+ String dquote ":"
       +:+ String dquote "Al" +:+ String dquote "}]".
Proof. reflexivity. Qed.

(** C2 (code bug). The key of an ancestor result is not of the shape
    [group_above_<id>]: for every group id the program appends a closing
    brace, so the key is [group_above_<id>}]. In particular group 1 is
    cached under [group_above_1}]. *)
Theorem C2_above_key_has_trailing_brace :
  above_cacheKey 1 = "group_above_1}" ∧
  ∀ groupId, above_cacheKey groupId = ("group_above_" +:+ pretty groupId) +:+ "}" ∧
             above_cacheKey groupId ≠ "group_above_" +:+ pretty groupId.
Proof.
  split; [reflexivity|]. intros g. split.
  - unfold above_cacheKey. generalize (pretty g). intros s. reflexivity.
  - unfold above_cacheKey. intros H.
    apply (inj (String.app _)) in H. by apply append_ne_self in H.
Qed.

(** C9. The subtree key depends on the order of the filters: the two
    sequences [{jobTitle:eng},{firstName:Al}] and
    [{firstName:Al},{jobTitle:eng}] hold the same predicates, select the
    same persons in every store, and give different keys for every group. *)
Theorem C9_filter_order_changes_key :
  ∃ f1 f2 : list FilterCriteria,
    f1 ≡ₚ f2 ∧
    (∀ groupId st, (select_persons groupId (conditions_of f1) st).1 =
                   (select_persons groupId (conditions_of f2) st).1) ∧
    ∀ groupId, below_cacheKey groupId f1 ≠ below_cacheKey groupId f2.
Proof.
  exists [[(jobTitle, "eng")]; [(firstName, "Al")]],
         [[(firstName, "Al")]; [(jobTitle, "eng")]].
  split; [apply perm_swap|]. split.
  - intros g st. unfold select_persons, persons_where. cbn [fst].
    apply list_filter_iff. intros p. cbn.
    destruct (String.eqb (p_jobTitle p) "eng"), (String.eqb (p_firstName p) "Al"); done.
  - intros g H. unfold below_cacheKey in H.
    do 3 apply (inj (String.app _)) in H. discriminate H.
Qed.

(** ** Redis *)

Lemma redis_get_setex_eq key ttl v st :
  0 < ttl → redis_get key (redis_setex key ttl v st) = Some v.
Proof.
  intros Httl. unfold redis_get, redis_setex, set_redis, live. cbn.
  rewrite lookup_insert_eq. cbn.
  destruct (Z.ltb_spec (clock st) (clock st + ttl)); [done | lia].
Qed.

Lemma redis_get_setex_ne key key' ttl v st :
  key ≠ key' → redis_get key' (redis_setex key ttl v st) = redis_get key' st.
Proof.
  intros Hne. unfold redis_get, redis_setex, set_redis. cbn.
  by rewrite lookup_insert_ne.
Qed.

Lemma redis_get_del key keys st :
  redis_get key (redis_del keys st) = if decide (key ∈ keys) then None else redis_get key st.
Proof.
  unfold redis_get, redis_del, set_redis. cbn. case_decide as Hin.
  - by rewrite lookup_foldr_delete.
  - by rewrite lookup_foldr_delete_not_elem_of.
Qed.

Lemma elem_of_redis_keys pattern key st :
  key ∈ redis_keys pattern st ↔
  ∃ e, redis st !! key = Some e ∧ glob_match pattern key = true ∧ live (clock st) e = true.
Proof.
  unfold redis_keys. rewrite list_elem_of_fmap. split.
  - intros [[k e] [-> Hin]]. apply elem_of_map_to_list in Hin.
    apply map_lookup_filter_Some in Hin as [Hlook [Hp Hl]]. by exists e.
  - intros [e (Hlook & Hp & Hl)]. exists (key, e). split; [done|].
    apply elem_of_map_to_list. by apply map_lookup_filter_Some.
Qed.

(** What [clearKeysStartingWith] leaves of the key space. *)
Lemma redis_get_clearKeys_glob pfx key st :
  redis_get key (clearKeysStartingWith pfx st) =
  if glob_match (pfx +:+ "*") key then None else redis_get key st.
Proof.
  unfold clearKeysStartingWith.
  destruct (0 <? List.length (redis_keys (pfx +:+ "*") st))%nat eqn:Hlen.
  - rewrite redis_get_del. case_decide as Hin.
    + apply elem_of_redis_keys in Hin as (e & _ & -> & _). done.
    + destruct (glob_match (pfx +:+ "*") key) eqn:Hp; [|done].
      unfold redis_get. destruct (redis st !! key) as [e|] eqn:Hlook; [|done].
      destruct (live (clock st) e) eqn:Hl; [|done].
      exfalso. apply Hin, elem_of_redis_keys. by exists e.
  - destruct (glob_match (pfx +:+ "*") key) eqn:Hp; [|done].
    unfold redis_get. destruct (redis st !! key) as [e|] eqn:Hlook; [|done].
    destruct (live (clock st) e) eqn:Hl; [|done].
    exfalso.
    assert (Hin : key ∈ redis_keys (pfx +:+ "*") st)
      by (apply elem_of_redis_keys; by exists e).
    destruct (redis_keys (pfx +:+ "*") st); [by apply elem_of_nil in Hin | done].
Qed.

(** *** Patterns without glob characters *)

Lemma glob_special_false a :
  glob_special a = false →
  is_char 42 a = false ∧ is_char 63 a = false ∧ is_char 91 a = false ∧ is_char 92 a = false.
Proof.
  unfold glob_special. intros H.
  destruct (is_char 42 a), (is_char 63 a), (is_char 91 a), (is_char 92 a); done.
Qed.

Lemma glob_fuel_literal fuel a p c s :
  glob_special a = false →
  glob_fuel (S fuel) (String a p) (String c s)
  = if Ascii.eqb a c then glob_fuel fuel p s else false.
Proof.
  intros (H1 & H2 & H3 & H4)%glob_special_false.
  cbn [glob_fuel]. by rewrite H1, H2, H3, H4.
Qed.

Lemma glob_fuel_literal_nil fuel a p :
  glob_special a = false → glob_fuel fuel (String a p) "" = false.
Proof.
  intros (H1 & _)%glob_special_false. destruct fuel; [done|].
  cbn [glob_fuel]. by rewrite H1.
Qed.

Lemma glob_fuel_star key fuel :
  (S (String.length key) < fuel)%nat → glob_fuel fuel "*" key = true.
Proof.
  revert fuel. induction key as [|c key IH]; intros fuel Hfuel.
  - destruct fuel as [|[|fuel]]; [cbn in Hfuel; lia..|]. reflexivity.
  - destruct fuel as [|fuel]; [lia|].
    change (glob_fuel (S fuel) "*" (String c key))
      with (glob_fuel fuel "" (String c key) || glob_fuel fuel "*" key).
    rewrite IH; [by rewrite orb_true_r|]. cbn in Hfuel. lia.
Qed.

Lemma prefix_cons a p c s :
  String.prefix (String a p) (String c s) = if Ascii.eqb a c then String.prefix p s else false.
Proof.
  cbn. destruct (ascii_dec a c) as [->|Hne].
  - by rewrite Ascii.eqb_refl.
  - destruct (Ascii.eqb_spec a c); done.
Qed.

(** A prefix without glob characters, followed by [*], matches the keys
    that start with it. *)
Lemma glob_fuel_prefix pfx :
  glob_free pfx = true →
  ∀ key fuel, (S (String.length pfx + String.length key) < fuel)%nat →
    glob_fuel fuel (pfx +:+ "*") key = String.prefix pfx key.
Proof.
  induction pfx as [|a pfx IH]; intros Hfree key fuel Hfuel.
  - change ("" +:+ "*") with "*". rewrite glob_fuel_star by (cbn in Hfuel; lia).
    by destruct key.
  - cbn in Hfree. apply andb_true_iff in Hfree as [Ha Hfree].
    apply negb_true_iff in Ha. rewrite append_cons.
    destruct key as [|c key]; [by rewrite glob_fuel_literal_nil|].
    destruct fuel as [|fuel]; [lia|].
    rewrite glob_fuel_literal, prefix_cons by done.
    destruct (Ascii.eqb a c); [|done]. apply IH; [done|]. cbn in Hfuel. lia.
Qed.

Lemma glob_match_prefix pfx key :
  glob_free pfx = true → glob_match (pfx +:+ "*") key = String.prefix pfx key.
Proof.
  intros Hfree. unfold glob_match. apply glob_fuel_prefix; [done|].
  rewrite length_append. cbn. lia.
Qed.

(** A pattern that starts with characters that are no glob characters
    matches only keys that start with them. *)
Lemma glob_fuel_literal_prefix lit :
  glob_free lit = true →
  ∀ rest key fuel, glob_fuel fuel (lit +:+ rest) key = true → String.prefix lit key = true.
Proof.
  induction lit as [|a lit IH]; intros Hfree rest key fuel H; [by destruct key|].
  cbn in Hfree. apply andb_true_iff in Hfree as [Ha Hfree].
  apply negb_true_iff in Ha. rewrite append_cons in H.
  destruct key as [|c key]; [by rewrite glob_fuel_literal_nil in H|].
  destruct fuel as [|fuel]; [done|].
  rewrite glob_fuel_literal in H by done. rewrite prefix_cons.
  destruct (Ascii.eqb a c); [|done]. by eapply IH.
Qed.

Lemma redis_get_clearKeys pfx key st :
  glob_free pfx = true →
  redis_get key (clearKeysStartingWith pfx st) =
  if String.prefix pfx key then None else redis_get key st.
Proof. intros Hfree. by rewrite redis_get_clearKeys_glob, glob_match_prefix. Qed.

(** A clear whose prefix starts with [lit] leaves the keys that do not
    start with [lit] alone, whatever follows [lit] in the prefix. *)
Lemma redis_get_clearKeys_outside lit rest key st :
  glob_free lit = true → String.prefix lit key = false →
  redis_get key (clearKeysStartingWith (lit +:+ rest) st) = redis_get key st.
Proof.
  intros Hfree Hp. rewrite redis_get_clearKeys_glob.
  destruct (glob_match ((lit +:+ rest) +:+ "*") key) eqn:Hm; [|done].
  unfold glob_match in Hm. rewrite append_assoc in Hm.
  apply glob_fuel_literal_prefix in Hm; [congruence | done].
Qed.

Lemma clock_clearKeys pfx st : clock (clearKeysStartingWith pfx st) = clock st.
Proof. unfold clearKeysStartingWith. by case_match. Qed.

Lemma db_clearKeys pfx st : db (clearKeysStartingWith pfx st) = db st.
Proof. unfold clearKeysStartingWith. by case_match. Qed.

Lemma redis_get_live key st v expiresAt t :
  redis st !! key = Some (v, expiresAt) → t < expiresAt →
  redis_get key (at_time t st) = Some v.
Proof.
  intros Hlook Ht. unfold redis_get, at_time. cbn.
  rewrite Hlook. unfold live. cbn [snd fst].
  by destruct (Z.ltb_spec t expiresAt); [|lia].
Qed.

Lemma redis_get_Some key st v :
  redis_get key st = Some v ↔
  ∃ expiresAt, redis st !! key = Some (v, expiresAt) ∧ clock st < expiresAt.
Proof.
  unfold redis_get, live. split.
  - destruct (redis st !! key) as [[w x]|]; [|done]. cbn [snd fst].
    destruct (Z.ltb_spec (clock st) x); [|done]. intros [= ->]. by exists x.
  - intros (x & -> & Hx). cbn [snd fst]. by destruct (Z.ltb_spec (clock st) x); [|lia].
Qed.

(** *** What a group write clears *)

Lemma below_key_prefix g f : String.prefix "groups_below_" (below_cacheKey g f) = true.
Proof.
  unfold below_cacheKey. generalize (pretty g +:+ "_" +:+ JSON_stringify f).
  intros [|c s]; reflexivity.
Qed.

Lemma above_key_prefixes g :
  String.prefix "groups_above_" (above_cacheKey g) = false ∧
  String.prefix "groups_below_" (above_cacheKey g) = false ∧
  above_cacheKey g ≠ "all_groups".
Proof.
  unfold above_cacheKey. generalize (pretty g +:+ "}"). intros s.
  split; [reflexivity|]. split; [reflexivity|].
  intros H. vm_compute in H. discriminate H.
Qed.

Lemma redis_get_settle_group_clears key st :
  redis_get key (settle_group_clears st) =
  if String.prefix "groups_above_" key then None
  else if String.prefix "groups_below_" key then None else redis_get key st.
Proof. unfold settle_group_clears. by rewrite !redis_get_clearKeys. Qed.

Lemma db_settle_group_clears st : db (settle_group_clears st) = db st.
Proof. unfold settle_group_clears. by rewrite !db_clearKeys. Qed.

Lemma clock_settle_group_clears st : clock (settle_group_clears st) = clock st.
Proof. unfold settle_group_clears. by rewrite !clock_clearKeys. Qed.

Lemma clear_group_caches_all_groups st :
  redis_get all_groups_cacheKey (clear_group_caches st) = None.
Proof.
  unfold clear_group_caches. rewrite redis_get_settle_group_clears. cbn.
  rewrite redis_get_del. case_decide as Hin; [done|].
  exfalso. apply Hin. unfold all_groups_cacheKey. set_solver.
Qed.

Lemma clear_group_caches_below st g f :
  redis_get (below_cacheKey g f) (clear_group_caches st) = None.
Proof.
  unfold clear_group_caches. rewrite redis_get_settle_group_clears, below_key_prefix.
  by case_match.
Qed.

Lemma clear_group_caches_above st g :
  redis_get (above_cacheKey g) (clear_group_caches st) = redis_get (above_cacheKey g) st.
Proof.
  destruct (above_key_prefixes g) as (H1 & H2 & H3).
  unfold clear_group_caches. rewrite redis_get_settle_group_clears, H1, H2, redis_get_del.
  case_decide as Hin; [|done].
  exfalso. apply list_elem_of_singleton in Hin. by apply H3.
Qed.

(** ** getOrSetCache *)

Lemma getOrSetCache_hit key cb st data :
  redis_get key st = Some data → getOrSetCache key cb st = Some (Resolved data, st).
Proof. intros H. unfold getOrSetCache. by rewrite H. Qed.

Lemma getOrSetCache_miss key cb st :
  redis_get key st = None →
  getOrSetCache key cb st =
  match cb st with
  | None => None
  | Some (Resolved freshData, st1) =>
      Some (Resolved freshData, redis_setex key DEFAULT_EXPIRATION freshData st1)
  | Some (Rejected error, st1) => Some (Rejected error, st1)
  end.
Proof. intros H. unfold getOrSetCache. by rewrite H. Qed.

(** C4. A rejected compute function: the rejection is what the caller gets,
    the state is the one the compute function left (nothing is stored under
    the key), a later call on that key runs its compute function again, and
    whenever a call that missed did store an entry its compute function had
    resolved. *)
Theorem C4_rejected_compute_is_not_cached key cb st e st1 :
  redis_get key st = None →
  cb st = Some (Rejected e, st1) →
  getOrSetCache key cb st = Some (Rejected e, st1) ∧
  (redis st1 !! key = redis st !! key → ∀ t cb', clock st ≤ t →
     redis_get key (at_time t st1) = None ∧
     getOrSetCache key cb' (at_time t st1) =
       match cb' (at_time t st1) with
       | None => None
       | Some (Resolved v, st2) => Some (Resolved v, redis_setex key DEFAULT_EXPIRATION v st2)
       | Some (Rejected e', st2) => Some (Rejected e', st2)
       end) ∧
  (∀ cb' out st', getOrSetCache key cb' st = Some (out, st') →
     (∃ v st2, cb' st = Some (Resolved v, st2) ∧ out = Resolved v ∧
               st' = redis_setex key DEFAULT_EXPIRATION v st2) ∨
     (∃ e', cb' st = Some (Rejected e', st') ∧ out = Rejected e')).
Proof.
  intros Hmiss Hcb. split; [|split].
  - rewrite getOrSetCache_miss by done. by rewrite Hcb.
  - intros Hkey t cb' Ht.
    assert (Hmiss' : redis_get key (at_time t st1) = None).
    { unfold redis_get in *. cbn. rewrite Hkey.
      destruct (redis st !! key) as [en|]; [|done].
      unfold live in *. destruct (Z.ltb_spec (clock st) en.2); [done|].
      destruct (Z.ltb_spec t en.2); [lia | done]. }
    split; [done|]. by apply getOrSetCache_miss.
  - intros cb' out st' Hcall. rewrite getOrSetCache_miss in Hcall by done.
    destruct (cb' st) as [[[v|e'] st2]|]; [| |done].
    + left. exists v, st2. by simplify_eq.
    + right. exists e'. by simplify_eq.
Qed.

Lemma C4_witness :
  let st := mkState (mkDatabase [] []) ∅ 100 0 in
  getOrSetCache all_groups_cacheKey all_groups_compute st =
    Some (Rejected "There are no groups.", count_query st) ∧
  redis (count_query st) !! all_groups_cacheKey = None.
Proof.
  intros st. split.
  - apply (C4_rejected_compute_is_not_cached all_groups_cacheKey all_groups_compute st
             "There are no groups." (count_query st)); reflexivity.
  - reflexivity.
Defined.

(** ** The ancestor traversal leaves Redis, the tables and the clock alone *)

Lemma same_but_queries_count st : same_but_queries st (count_query st).
Proof. done. Qed.

Lemma same_but_queries_trans st1 st2 st3 :
  same_but_queries st1 st2 → same_but_queries st2 st3 → same_but_queries st1 st3.
Proof. unfold same_but_queries. intros (-> & -> & ->) (-> & -> & ->). done. Qed.

Lemma fetchparentGroupRecursive_state fuel id st pushed st' :
  fetchparentGroupRecursive fuel id st = Some (pushed, st') → same_but_queries st st'.
Proof.
  revert id st pushed st'. induction fuel as [|fuel IH]; intros id st pushed st' H; [done|].
  cbn in H. destruct (head _) as [row|]; [|by simplify_eq].
  destruct (head _) as [prow|]; [|by simplify_eq].
  destruct (fetchparentGroupRecursive _ _ _) as [[pp st3]|] eqn:Hrec; [|done].
  simplify_eq. apply IH in Hrec. destruct Hrec as (? & ? & ?). split_and!; by etrans.
Qed.

Lemma above_compute_resolves fuel g st out st' :
  above_compute fuel g st = Some (out, st') →
  (∃ v, out = Resolved v) ∧ same_but_queries st st'.
Proof.
  unfold above_compute. cbn. intros H.
  destruct (head _) as [row|];
    [|simplify_eq; split; [by eauto | apply same_but_queries_count]].
  destruct (fetchparentGroupRecursive _ _ _) as [[pp st2]|] eqn:Hrec; [|done].
  simplify_eq. apply fetchparentGroupRecursive_state in Hrec. split; [by eauto|].
  destruct Hrec as (? & ? & ?). split_and!; by etrans.
Qed.

(** C5. When a call of [fetchGroupHierarchyAbove] has returned, the key of
    the group holds the returned value in a live entry; as long as that entry
    lives and nothing else changed, a second call resolves with the same
    value whatever its compute function is, and leaves the state, the query
    counter included, as it found it. *)
Theorem C5_second_ancestor_call_is_cache_hit fuel g st out st1 :
  fetchGroupHierarchyAbove fuel g st = Some (out, st1) →
  ∃ v expiresAt,
    out = Resolved v ∧
    redis st1 !! above_cacheKey g = Some (v, expiresAt) ∧
    clock st < expiresAt ∧
    (redis_get (above_cacheKey g) st = None → expiresAt = clock st + DEFAULT_EXPIRATION) ∧
    ∀ t, t < expiresAt →
      (∀ cb, getOrSetCache (above_cacheKey g) cb (at_time t st1)
             = Some (Resolved v, at_time t st1)) ∧
      (∀ fuel', fetchGroupHierarchyAbove fuel' g (at_time t st1)
                = Some (Resolved v, at_time t st1)).
Proof.
  unfold fetchGroupHierarchyAbove. intros Hcall.
  assert (Hhit : ∀ v expiresAt st', redis st' !! above_cacheKey g = Some (v, expiresAt) →
            ∀ t, t < expiresAt → ∀ cb,
            getOrSetCache (above_cacheKey g) cb (at_time t st') = Some (Resolved v, at_time t st')).
  { intros v x st' Hlook t Ht cb. apply getOrSetCache_hit.
    by eapply redis_get_live. }
  destruct (redis_get (above_cacheKey g) st) as [data|] eqn:Hget.
  - rewrite (getOrSetCache_hit _ _ _ _ Hget) in Hcall. simplify_eq.
    apply redis_get_Some in Hget as (x & Hlook & Hx).
    exists data, x. split_and!; [done..|]. intros t Ht. split; intros; by eapply Hhit.
  - rewrite getOrSetCache_miss in Hcall by done.
    destruct (above_compute fuel g st) as [[o st']|] eqn:Hc; [|done].
    apply above_compute_resolves in Hc as [[v ->] (Hdb & Hredis & Hclock)].
    simplify_eq.
    assert (Hlook : redis (redis_setex (above_cacheKey g) DEFAULT_EXPIRATION v st')
                      !! above_cacheKey g = Some (v, clock st + DEFAULT_EXPIRATION)).
    { unfold redis_setex. cbn. by rewrite lookup_insert_eq, Hclock. }
    exists v, (clock st + DEFAULT_EXPIRATION).
    split_and!; [done | done | unfold DEFAULT_EXPIRATION; lia | done |].
    intros t Ht. split; intros; by eapply Hhit.
Qed.

Lemma C5_witness :
  ∃ v expiresAt,
    Resolved (above_obj 2 "Child" [above_obj 1 "Root" []]) = Resolved v ∧
    redis (state_after (fetchGroupHierarchyAbove 5 2 demo_st) demo_st) !! above_cacheKey 2
      = Some (v, expiresAt) ∧
    clock demo_st < expiresAt ∧
    (redis_get (above_cacheKey 2) demo_st = None →
     expiresAt = clock demo_st + DEFAULT_EXPIRATION) ∧
    ∀ t, t < expiresAt →
      (∀ cb, getOrSetCache (above_cacheKey 2) cb
               (at_time t (state_after (fetchGroupHierarchyAbove 5 2 demo_st) demo_st))
             = Some (Resolved v,
                     at_time t (state_after (fetchGroupHierarchyAbove 5 2 demo_st) demo_st))) ∧
      (∀ fuel', fetchGroupHierarchyAbove fuel' 2
                  (at_time t (state_after (fetchGroupHierarchyAbove 5 2 demo_st) demo_st))
                = Some (Resolved v,
                        at_time t (state_after (fetchGroupHierarchyAbove 5 2 demo_st) demo_st))).
Proof.
  apply (C5_second_ancestor_call_is_cache_hit 5 2 demo_st).
  vm_compute. reflexivity.
Defined.

(** ** Group writes and the ancestor entries *)

Lemma redis_get_count_query key st : redis_get key (count_query st) = redis_get key st.
Proof. done. Qed.

Lemma redis_get_set_groups key g st : redis_get key (set_groups g st) = redis_get key st.
Proof. done. Qed.

Lemma redis_get_del_other key keys st :
  key ∉ keys → redis_get key (redis_del keys st) = redis_get key st.
Proof. intros Hin. rewrite redis_get_del. by case_decide. Qed.

Lemma above_key_not_all_groups g : above_cacheKey g ∉ ["all_groups"].
Proof.
  intros Hin%list_elem_of_singleton. by destruct (above_key_prefixes g) as (_ & _ & H).
Qed.

(** Both at the response and once the two clears have completed. *)
Lemma above_entry_survives_createGroup name parent st g :
  redis_get (above_cacheKey g) (createGroup name parent st).2 = redis_get (above_cacheKey g) st ∧
  redis_get (above_cacheKey g) (settle_group_clears (createGroup name parent st).2)
    = redis_get (above_cacheKey g) st.
Proof.
  unfold createGroup. cbn [snd]. split.
  - by rewrite redis_get_del_other by apply above_key_not_all_groups.
  - etrans; [apply (clear_group_caches_above _ g) | done].
Qed.

Lemma above_entry_survives_deleteGroup id st g :
  redis_get (above_cacheKey g) (deleteGroup id st).2 = redis_get (above_cacheKey g) st ∧
  redis_get (above_cacheKey g) (settle_group_clears (deleteGroup id st).2)
    = redis_get (above_cacheKey g) st.
Proof.
  unfold deleteGroup. cbn [snd]. split.
  - by rewrite redis_get_del_other by apply above_key_not_all_groups.
  - etrans; [apply (clear_group_caches_above _ g) | done].
Qed.

(** C1 (code bug). A group write deletes [all_groups] and every key that
    starts with [groups_below_], and then clears the prefix [groups_above_],
    under which no ancestor result is stored: an ancestor entry survives the
    invalidation of every write. After group 2 has been moved from under
    group 1 to under group 3, [fetchGroupHierarchyAbove(2)] still resolves
    with the chain through group 1, without a query, while the store holds
    the chain through group 3; this holds at the response of the write and
    once its two clears have completed. *)
Theorem C1_ancestor_entries_survive_group_writes :
  (∀ st g, redis_get (above_cacheKey g) (clear_group_caches st)
           = redis_get (above_cacheKey g) st) ∧
  (∀ st g f, redis_get (below_cacheKey g f) (clear_group_caches st) = None) ∧
  (∀ st, redis_get all_groups_cacheKey (clear_group_caches st) = None) ∧
  let st1 := state_after (fetchGroupHierarchyAbove 5 2 demo_st) demo_st in
  let written := updateGroup 1000 no_fault 2 None (StringId 3) st1 in
  written.1 = Res 200 (message_obj "Group updated successfully!") ∧
  ∀ st2, st2 = written.2 ∨ st2 = settle_group_clears written.2 →
    first_group (db st2) (Some 2) = Some (mkGroupRow 2 "Child" (Some 3) 0) ∧
    fetchGroupHierarchyAbove 5 2 st2
      = Some (Resolved (above_obj 2 "Child" [above_obj 1 "Root" []]), st2) ∧
    fst <$> above_compute 5 2 st2
      = Some (Resolved (above_obj 2 "Child" [above_obj 3 "Other" []])).
Proof.
  split; [apply clear_group_caches_above|].
  split; [apply clear_group_caches_below|].
  split; [apply clear_group_caches_all_groups|].
  split; [vm_compute; done|].
  intros st2 [->| ->]; vm_compute; done.
Qed.

(** ** Not-found results *)

Lemma above_compute_absent fuel g st :
  first_group (db st) (Some g) = None →
  above_compute fuel g st = Some (Resolved (not_found g), count_query st).
Proof. unfold first_group, above_compute. cbn. by intros ->. Qed.

Lemma below_compute_absent rec g f st :
  first_group (db st) (Some g) = None →
  below_compute rec g f st = Some (Resolved (not_found g), count_query st).
Proof. unfold first_group, below_compute. cbn. by intros ->. Qed.

Lemma fetchGroupHierarchyBelow_unfold fuel g f :
  fetchGroupHierarchyBelow fuel g f =
  getOrSetCache (below_cacheKey g f) (below_compute (below_rec fuel f) g f).
Proof. by destruct fuel. Qed.

(** A not-found object stored under a key is served, until it expires,
    whatever the tables have become. *)
Lemma not_found_served key g cb st :
  redis_get key st = None →
  cb st = Some (Resolved (not_found g), count_query st) →
  getOrSetCache key cb st
    = Some (Resolved (not_found g),
            redis_setex key DEFAULT_EXPIRATION (not_found g) (count_query st)) ∧
  ∀ t d cb', t < clock st + DEFAULT_EXPIRATION →
    let st2 := set_db d (at_time t
                 (redis_setex key DEFAULT_EXPIRATION (not_found g) (count_query st))) in
    getOrSetCache key cb' st2 = Some (Resolved (not_found g), st2).
Proof.
  intros Hmiss Hcb. split.
  - rewrite getOrSetCache_miss by done. by rewrite Hcb.
  - intros t d cb' Ht st2. apply getOrSetCache_hit.
    unfold st2, redis_get, redis_setex, live. cbn. rewrite lookup_insert_eq. cbn.
    by destruct (Z.ltb_spec t (clock st + DEFAULT_EXPIRATION)); [|lia].
Qed.

(** C10. When the requested group is absent and the key misses, both
    traversals resolve with the not-found object and store it under the
    traversal key with the default expiry; until then every call on that key
    resolves with the stored object and leaves the state untouched (no
    query), whatever rows the tables hold by then. *)
Theorem C10_not_found_is_memoized g st :
  first_group (db st) (Some g) = None →
  (redis_get (above_cacheKey g) st = None →
   ∀ fuel,
     let st1 := redis_setex (above_cacheKey g) DEFAULT_EXPIRATION (not_found g)
                  (count_query st) in
     fetchGroupHierarchyAbove fuel g st = Some (Resolved (not_found g), st1) ∧
     ∀ t d fuel', t < clock st + DEFAULT_EXPIRATION →
       fetchGroupHierarchyAbove fuel' g (set_db d (at_time t st1))
       = Some (Resolved (not_found g), set_db d (at_time t st1))) ∧
  (∀ f, redis_get (below_cacheKey g f) st = None →
   ∀ fuel,
     let st1 := redis_setex (below_cacheKey g f) DEFAULT_EXPIRATION (not_found g)
                  (count_query st) in
     fetchGroupHierarchyBelow fuel g f st = Some (Resolved (not_found g), st1) ∧
     ∀ t d fuel', t < clock st + DEFAULT_EXPIRATION →
       fetchGroupHierarchyBelow fuel' g f (set_db d (at_time t st1))
       = Some (Resolved (not_found g), set_db d (at_time t st1))).
Proof.
  intros Habsent. split.
  - intros Hmiss fuel st1.
    destruct (not_found_served (above_cacheKey g) g (above_compute fuel g) st Hmiss
                (above_compute_absent fuel g st Habsent)) as [H1 H2].
    split; [exact H1|]. intros t d fuel' Ht. by apply H2.
  - intros f Hmiss fuel st1. rewrite fetchGroupHierarchyBelow_unfold.
    edestruct (not_found_served (below_cacheKey g f) g) as [H1 H2];
      [exact Hmiss | by apply below_compute_absent |].
    split; [exact H1|]. intros t d fuel' Ht.
    rewrite fetchGroupHierarchyBelow_unfold. by apply H2.
Qed.

Lemma C10_witness :
  let st1 := redis_setex (above_cacheKey 9) DEFAULT_EXPIRATION (not_found 9)
               (count_query demo_st) in
  let later := mkDatabase [mkGroupRow 9 "New" None 150] [] in
  fetchGroupHierarchyAbove 5 9 demo_st = Some (Resolved (not_found 9), st1) ∧
  fetchGroupHierarchyAbove 5 9 (set_db later (at_time 200 st1))
    = Some (Resolved (not_found 9), set_db later (at_time 200 st1)).
Proof.
  intros st1 later.
  destruct (C10_not_found_is_memoized 9 demo_st eq_refl) as [Habove _].
  destruct (Habove eq_refl 5%nat) as [H1 H2].
  split; [exact H1|]. apply H2. reflexivity.
Defined.

(** ** The descendant query of [updateGroup] *)

Lemma head_filter_Some {A} (P : A → Prop) `{!∀ x, Decision (P x)} (l : list A) x :
  head (filter P l) = Some x → P x ∧ x ∈ l.
Proof.
  intros Hhead. assert (Hin : x ∈ filter P l).
  { destruct (filter P l); simplify_eq/=. apply list_elem_of_here. }
  by apply list_elem_of_filter in Hin.
Qed.

Lemma head_filter_is_Some {A} (P : A → Prop) `{!∀ x, Decision (P x)} (l : list A) x :
  x ∈ l → P x → is_Some (head (filter P l)).
Proof.
  intros Hin HP. assert (Hf : x ∈ filter P l) by by apply list_elem_of_filter.
  destruct (filter P l); [by apply elem_of_nil in Hf | by eexists].
Qed.

Lemma elem_of_cte_step groups level g :
  g ∈ cte_step groups level ↔
  ∃ d, d ∈ level ∧ g ∈ groups ∧ g_parentGroupId g = Some (g_id d).
Proof.
  unfold cte_step. rewrite list_elem_of_In, in_flat_map. split.
  - intros (d & Hd & Hg). apply list_elem_of_In, list_elem_of_filter in Hg as [? ?].
    exists d. by rewrite list_elem_of_In.
  - intros (d & Hd & Hg & Hp). exists d. rewrite <- !list_elem_of_In.
    split; [done|]. by apply list_elem_of_filter.
Qed.

Lemma cte_iterate_S depth groups r level :
  cte_iterate (S depth) groups (r :: level) =
  app (r :: level) <$> cte_iterate depth groups (cte_step groups (r :: level)).
Proof. reflexivity. Qed.

Lemma cte_iterate_level depth groups level rows :
  cte_iterate depth groups level = Some rows → ∀ r, r ∈ level → r ∈ rows.
Proof.
  destruct level as [|r0 level]; [by intros _ r ?%elem_of_nil|].
  destruct depth as [|depth]; [done|]. rewrite cte_iterate_S.
  destruct (cte_iterate depth groups _) as [rest|]; [|done].
  intros [= <-] r Hr. apply (elem_of_app (r0 :: level) rest). by left.
Qed.

(** The result is closed under the child relation... *)
Lemma cte_iterate_closed depth groups level rows :
  cte_iterate depth groups level = Some rows →
  ∀ d g, d ∈ rows → g ∈ groups → g_parentGroupId g = Some (g_id d) → g ∈ rows.
Proof.
  revert level rows. induction depth as [|depth IH]; intros level rows H d g Hd Hg Hp.
  - destruct level; simplify_eq/=. by apply elem_of_nil in Hd.
  - destruct level as [|r0 level]; [simplify_eq/=; by apply elem_of_nil in Hd|].
    rewrite cte_iterate_S in H.
    destruct (cte_iterate depth groups (cte_step groups (r0 :: level))) as [rest|] eqn:Hrest;
      [|discriminate H].
    cbn in H. injection H as <-. apply (elem_of_app (r0 :: level) rest). right.
    apply (elem_of_app (r0 :: level) rest) in Hd as [Hd|Hd].
    + eapply cte_iterate_level; [exact Hrest|]. apply elem_of_cte_step. by exists d.
    + by eapply IH.
Qed.

(** ... and holds descendants only. *)
Lemma cte_iterate_sound depth groups a level rows :
  cte_iterate depth groups level = Some rows →
  (∀ r, r ∈ level → Descendant groups a (g_id r)) →
  ∀ r, r ∈ rows → Descendant groups a (g_id r).
Proof.
  revert level rows. induction depth as [|depth IH]; intros level rows H Hlevel r Hr.
  - destruct level; simplify_eq/=. by apply elem_of_nil in Hr.
  - destruct level as [|r0 level]; [simplify_eq/=; by apply elem_of_nil in Hr|].
    rewrite cte_iterate_S in H.
    destruct (cte_iterate depth groups (cte_step groups (r0 :: level))) as [rest|] eqn:Hrest;
      [|discriminate H].
    cbn in H. injection H as <-.
    apply (elem_of_app (r0 :: level) rest) in Hr as [Hr|Hr]; [by apply Hlevel|].
    eapply IH; [exact Hrest| |exact Hr].
    intros g (d & Hd & Hg & Hp)%elem_of_cte_step. eapply desc_child; eauto.
Qed.

(** The ids the query returns are the descendants of the group. *)
Lemma descendantQuery_spec depth a st rows :
  (descendantQuery depth a st).1 = Some rows →
  ∀ b, b ∈ map g_id rows ↔ Descendant (group_table (db st)) a b.
Proof.
  unfold descendantQuery. cbn [fst]. intros H b. split.
  - intros (r & -> & Hr)%list_elem_of_fmap.
    eapply cte_iterate_sound; [exact H| |exact Hr].
    intros r' [Hid Hin]%list_elem_of_filter. rewrite Hid. by eapply desc_self.
  - induction 1 as [r Hin Hid|d g Hd IH Hg Hp].
    + apply list_elem_of_fmap. exists r. split; [done|].
      eapply cte_iterate_level; [exact H|]. by apply list_elem_of_filter.
    + apply list_elem_of_fmap in IH as (rd & -> & Hrd).
      apply list_elem_of_fmap. exists g. split; [done|].
      by eapply cte_iterate_closed.
Qed.

(** On a table whose parent pointers decrease a rank (no cycle), a recursion
    limit above the rank of the group lets the query return. *)
Lemma cte_iterate_returns (rank : Z → nat) groups :
  (∀ g d, g ∈ groups → g_parentGroupId g = Some d → (rank (g_id g) < rank d)%nat) →
  ∀ n level depth,
    (∀ r, r ∈ level → rank (g_id r) ≤ n)%nat → (n < depth)%nat →
    is_Some (cte_iterate depth groups level).
Proof.
  intros Hrank n. induction n as [|n IH]; intros level depth Hlevel Hdepth.
  - destruct level as [|r0 level]; [by destruct depth; eexists|].
    destruct depth as [|depth]; [lia|]. rewrite cte_iterate_S.
    assert (Hnext : cte_step groups (r0 :: level) = []).
    { destruct (cte_step groups (r0 :: level)) as [|g rest] eqn:Hs; [done|].
      assert (Hg : g ∈ cte_step groups (r0 :: level)) by (rewrite Hs; apply list_elem_of_here).
      apply elem_of_cte_step in Hg as (d & Hd & Hg & Hp).
      specialize (Hrank _ _ Hg Hp). specialize (Hlevel _ Hd). lia. }
    rewrite Hnext. destruct depth; by eexists.
  - destruct level as [|r0 level]; [by destruct depth; eexists|].
    destruct depth as [|depth]; [lia|]. rewrite cte_iterate_S.
    destruct (IH (cte_step groups (r0 :: level)) depth) as [rest Hrest]; [|lia|].
    + intros g (d & Hd & Hg & Hp)%elem_of_cte_step.
      specialize (Hrank _ _ Hg Hp). specialize (Hlevel _ Hd). lia.
    + rewrite Hrest. by eexists.
Qed.

Lemma descendantQuery_returns (rank : Z → nat) depth a st :
  (∀ g d, g ∈ group_table (db st) → g_parentGroupId g = Some d →
          (rank (g_id g) < rank d)%nat) →
  (rank a < depth)%nat →
  is_Some (descendantQuery depth a st).1.
Proof.
  intros Hrank Hdepth. unfold descendantQuery. cbn [fst].
  eapply (cte_iterate_returns rank); [exact Hrank| |exact Hdepth].
  intros r [-> _]%list_elem_of_filter. done.
Qed.

Lemma Descendant_root_exists groups a b :
  Descendant groups a b → ∃ r, r ∈ groups ∧ g_id r = a.
Proof. induction 1; eauto. Qed.

(** C3 (counterexample). The proposed parent being a descendant does not
    by itself give the circular-reference answer: on the chain 3 under 2
    under 1, with a recursion limit of 2, the descendant query of group 1 is
    aborted and [updateGroup] answers 500. *)
Lemma C3_counterexample :
  ¬ (∀ depth id groupName parentGroupId st,
       parentGroupId ≠ Undefined →
       Descendant (group_table (db st)) id (Number parentGroupId) →
       (updateGroup depth no_fault id groupName parentGroupId st).1
       = Res 400 (error_obj "Circular reference detected.")).
Proof.
  intros H.
  specialize (H 2%nat 1 None (StringId 3) deep_st).
  assert (Hdesc : Descendant (group_table (db deep_st)) 1 (Number (StringId 3))).
  { apply (desc_child _ _ 2 (mkGroupRow 3 "Bottom" (Some 2) 0)).
    - apply (desc_child _ _ 1 (mkGroupRow 2 "Middle" (Some 1) 0)).
      + apply (desc_self _ _ (mkGroupRow 1 "Top" None 0)); [|reflexivity].
        apply list_elem_of_here.
      + apply list_elem_of_further, list_elem_of_here.
      + reflexivity.
    - do 2 apply list_elem_of_further. apply list_elem_of_here.
    - reflexivity. }
  specialize (H ltac:(discriminate) Hdesc).
  vm_compute in H. discriminate H.
Qed.

(** C3 (amended). When the proposed parent is a descendant of the group
    being moved (the group itself included), [updateGroup] never reaches an
    UPDATE, whatever statements the server rejects: it answers 400 with the
    circular-reference error when the SELECT and the descendant query
    complete, and 500 when the server rejects one of them or aborts the
    query at its recursion limit; in each case the tables, Redis and the
    clock are as before the request. On a table without a cycle a recursion
    limit above the rank of the group gives the 400. *)
Theorem C3_reparent_under_descendant_never_applied
    depth rejects id groupName parentGroupId st :
  parentGroupId ≠ Undefined →
  Descendant (group_table (db st)) id (Number parentGroupId) →
  (∃ st',
     updateGroup depth rejects id groupName parentGroupId st
     = (if rejects 0%nat || rejects 1%nat then internal_error
        else match (descendantQuery depth id st).1 with
             | Some _ => Res 400 (error_obj "Circular reference detected.")
             | None => internal_error
             end,
        st') ∧
     db st' = db st ∧ redis st' = redis st ∧ clock st' = clock st) ∧
  (∀ rank : Z → nat,
     (∀ g d, g ∈ group_table (db st) → g_parentGroupId g = Some d →
             (rank (g_id g) < rank d)%nat) →
     (rank id < depth)%nat → rejects 0%nat = false → rejects 1%nat = false →
     (updateGroup depth rejects id groupName parentGroupId st).1
     = Res 400 (error_obj "Circular reference detected.")).
Proof.
  intros Hdef Hdesc.
  assert (Hmain : ∃ st',
     updateGroup depth rejects id groupName parentGroupId st
     = (if rejects 0%nat || rejects 1%nat then internal_error
        else match (descendantQuery depth id st).1 with
             | Some _ => Res 400 (error_obj "Circular reference detected.")
             | None => internal_error
             end,
        st') ∧
     db st' = db st ∧ redis st' = redis st ∧ clock st' = clock st).
  { destruct (Descendant_root_exists _ _ _ Hdesc) as (r & Hr & Hid).
    unfold updateGroup, select_group_by_id, groups_by_id.
    destruct (rejects 0%nat); [by eexists|]. cbn [orb].
    destruct (head_filter_is_Some (λ r, g_id r = id) _ r Hr Hid) as [existing Hex].
    rewrite Hex. apply head_filter_Some in Hex as [Hexid _]. rewrite Hexid.
    destruct (rejects 1%nat); [destruct parentGroupId; [done|by eexists..]|].
    change (descendantQuery depth id (count_query st))
      with ((descendantQuery depth id st).1, count_query (count_query st)).
    destruct ((descendantQuery depth id st).1) as [rows|] eqn:Hq.
    - assert (Hin : Number parentGroupId ∈ map g_id rows)
        by by apply (descendantQuery_spec depth id st).
      rewrite bool_decide_eq_true_2 by done.
      destruct parentGroupId; [done|by eexists..].
    - destruct parentGroupId; [done|by eexists..]. }
  split; [exact Hmain|].
  intros rank Hrank Hdepth H0 H1. destruct Hmain as (st' & -> & _). cbn [fst].
  rewrite H0, H1. cbn [orb].
  by destruct (descendantQuery_returns rank depth id st Hrank Hdepth) as [rows ->].
Qed.

Lemma C3_witness :
  (∃ st',
     updateGroup 1000 no_fault 1 None (StringId 2) demo_st
     = (Res 400 (error_obj "Circular reference detected."), st') ∧
     db st' = db demo_st ∧ redis st' = redis demo_st ∧ clock st' = clock demo_st) ∧
  (∃ st',
     updateGroup 2 no_fault 1 None (StringId 3) deep_st = (internal_error, st') ∧
     db st' = db deep_st ∧ redis st' = redis deep_st ∧ clock st' = clock deep_st).
Proof.
  split.
  - apply (C3_reparent_under_descendant_never_applied 1000 no_fault 1 None (StringId 2)
             demo_st).
    + discriminate.
    + apply (desc_child _ _ 1 (mkGroupRow 2 "Child" (Some 1) 0)).
      * apply (desc_self _ _ (mkGroupRow 1 "Root" None 0)); [|reflexivity].
        apply list_elem_of_here.
      * apply list_elem_of_further, list_elem_of_here.
      * reflexivity.
  - apply (C3_reparent_under_descendant_never_applied 2 no_fault 1 None (StringId 3)
             deep_st).
    + discriminate.
    + apply (desc_child _ _ 2 (mkGroupRow 3 "Bottom" (Some 2) 0)).
      * apply (desc_child _ _ 1 (mkGroupRow 2 "Middle" (Some 1) 0)).
        -- apply (desc_self _ _ (mkGroupRow 1 "Top" None 0)); [|reflexivity].
           apply list_elem_of_here.
        -- apply list_elem_of_further, list_elem_of_here.
        -- reflexivity.
      * do 2 apply list_elem_of_further. apply list_elem_of_here.
      * reflexivity.
Defined.

(** ** The ancestor chain *)

Lemma fetchparentGroupRecursive_S fuel id st :
  fetchparentGroupRecursive (S fuel) id st =
  match first_group (db st) (Some id) with
  | None => Some ([], count_query st)
  | Some currentGroupRow =>
      match first_group (db st) (g_parentGroupId currentGroupRow) with
      | None => Some ([], count_query (count_query st))
      | Some parentGroupRow =>
          match fetchparentGroupRecursive fuel (g_id parentGroupRow)
                  (count_query (count_query st)) with
          | None => None
          | Some (pushed, st3) =>
              Some ([above_obj (g_id parentGroupRow) (g_groupName parentGroupRow) pushed], st3)
          end
      end
  end.
Proof. reflexivity. Qed.

Lemma first_group_id d id row : first_group d (Some id) = Some row → g_id row = id.
Proof. unfold first_group, groups_by_id. by intros [? _]%head_filter_Some. Qed.











(** ** The descendant traversal: the loop over the children *)

Lemma has_error_not_found g : has_error (not_found g) = Some true.
Proof. reflexivity. Qed.

Lemma has_error_below_obj id name persons groups :
  has_error (below_obj id name persons groups) = Some false.
Proof. reflexivity. Qed.

Lemma below_compute_present rec g f st row :
  first_group (db st) (Some g) = Some row →
  below_compute rec g f st =
  match child_loop rec (child_groups (db st) g) []
          (count_query (count_query (count_query st))) with
  | None => None
  | Some (Rejected e, st4) => Some (Rejected e, st4)
  | Some (Resolved (inl childError), st4) => Some (Resolved childError, st4)
  | Some (Resolved (inr groups), st4) =>
      Some (Resolved (below_obj g (g_groupName row)
                        (map person_obj (persons_where (db st) g (conditions_of f)))
                        groups), st4)
  end.
Proof.
  intros Hrow. unfold below_compute, select_group_by_id, select_persons, select_child_groups.
  fold (first_group (db st) (Some g)). by rewrite Hrow.
Qed.






(** ** The filter conditions *)

Lemma forallb_cons_eq {A} (P : A → bool) x l : forallb P (x :: l) = P x && forallb P l.
Proof. reflexivity. Qed.

Lemma forallb_concat {A} (P : A → bool) (ls : list (list A)) :
  forallb P (List.concat ls) = forallb (forallb P) ls.
Proof.
  induction ls as [|l ls IH]; [done|]. cbn. by rewrite forallb_app, IH.
Qed.

Lemma criteria_conditions_holds p c :
  forallb (condition_holds p) (criteria_conditions c) =
  forallb (λ fld, match get_field fld c with
                  | Some v => String.eqb v "" || String.eqb (person_field fld p) v
                  | None => true
                  end) [jobTitle; firstName].
Proof.
  unfold criteria_conditions. rewrite forallb_app. cbn.
  destruct (get_field jobTitle c) as [v|], (get_field firstName c) as [w|]; cbn;
    try destruct (String.eqb v ""); try destruct (String.eqb w ""); cbn;
    unfold condition_holds; cbn; by rewrite ?andb_true_r.
Qed.

(** The SQL conditions of the person query are the predicates with a
    non-empty value. *)
Lemma conditions_of_holds f p :
  forallb (condition_holds p) (conditions_of f) = satisfies_nonempty_predicates f p.
Proof.
  unfold conditions_of, satisfies_nonempty_predicates.
  rewrite forallb_concat. induction f as [|c f IH]; [done|].
  cbn [map]. rewrite !(forallb_cons_eq _ _ _). by rewrite IH, criteria_conditions_holds.
Qed.

Lemma persons_where_assigned d f id :
  persons_where d id (conditions_of f) =
  assigned_persons d (satisfies_nonempty_predicates f) id.
Proof.
  unfold persons_where, assigned_persons. apply list_filter_iff. intros p.
  by rewrite conditions_of_holds.
Qed.


(** ** The traversal on the tables *)

Lemma subtree_unfold fuel d f id :
  subtree fuel d f id = subtree_step (subtree_rec fuel d f) d f id.
Proof. by destruct fuel. Qed.

Lemma subtree_children_mono (rec1 rec2 : Z → option json) :
  (∀ id j, rec1 id = Some j → rec2 id = Some j) →
  ∀ cs acc r, subtree_children rec1 cs acc = Some r → subtree_children rec2 cs acc = Some r.
Proof.
  intros Hrec cs. induction cs as [|c cs IH]; intros acc r H; [done|].
  cbn in *. destruct (rec1 (g_id c)) as [j|] eqn:H1; [|done].
  rewrite (Hrec _ _ H1). destruct (has_error j) as [[|]|]; [done| |done]. by apply IH.
Qed.

Lemma subtree_step_mono (rec1 rec2 : Z → option json) d f id j :
  (∀ id j, rec1 id = Some j → rec2 id = Some j) →
  subtree_step rec1 d f id = Some j → subtree_step rec2 d f id = Some j.
Proof.
  intros Hrec. unfold subtree_step. destruct (first_group d (Some id)) as [row|]; [|done].
  destruct (subtree_children rec1 _ _) as [r|] eqn:H1; [|done].
  by rewrite (subtree_children_mono _ _ Hrec _ _ _ H1).
Qed.

Lemma subtree_S fuel d f id j :
  subtree fuel d f id = Some j → subtree (S fuel) d f id = Some j.
Proof.
  revert id j. induction fuel as [|fuel IH]; intros id j H.
  - rewrite subtree_unfold in *. by eapply subtree_step_mono; [|exact H].
  - rewrite subtree_unfold in *. eapply subtree_step_mono; [|exact H]. exact IH.
Qed.

Lemma subtree_le n m d f id j :
  (n ≤ m)%nat → subtree n d f id = Some j → subtree m d f id = Some j.
Proof.
  intros Hle. induction Hle as [|m Hle IH]; [done|].
  intros Hs. by apply subtree_S, IH.
Qed.

Lemma subtree_det n m d f id j j' :
  subtree n d f id = Some j → subtree m d f id = Some j' → j = j'.
Proof.
  intros H H'. apply (subtree_le n (n `max` m)) in H; [|lia].
  apply (subtree_le m (n `max` m)) in H'; [|lia]. congruence.
Qed.

(** The rows of the child query have a row of their own. *)
Lemma child_groups_first d id c :
  c ∈ child_groups d id → is_Some (first_group d (Some (g_id c))).
Proof.
  intros [_ Hin]%list_elem_of_filter. unfold first_group, groups_by_id.
  by eapply (head_filter_is_Some (λ r, g_id r = g_id c)).
Qed.

Lemma child_groups_parent d id c : c ∈ child_groups d id → g_parentGroupId c = Some id.
Proof. by intros [? _]%list_elem_of_filter. Qed.

Lemma child_groups_table d id c : c ∈ child_groups d id → c ∈ group_table d.
Proof. by intros [_ ?]%list_elem_of_filter. Qed.

Lemma subtree_children_all (rec : Z → option json) cs acc r :
  subtree_children rec cs acc = Some r →
  (∀ c sub, c ∈ cs → rec (g_id c) = Some sub → has_error sub = Some false) →
  ∃ objs, r = inr (acc ++ objs)%list ∧
    Forall2 (λ c o, ∃ sub, rec (g_id c) = Some sub ∧ has_error sub = Some false ∧
                           o = child_obj c sub) cs objs.
Proof.
  revert acc. induction cs as [|c cs IH]; intros acc H Hok.
  - cbn in H. simplify_eq. exists []. by rewrite app_nil_r.
  - cbn in H. destruct (rec (g_id c)) as [sub|] eqn:Hrec; [|done].
    rewrite (Hok c sub (list_elem_of_here _ _) Hrec) in H.
    apply IH in H as (objs & -> & Hall);
      [|intros c' sub' Hc'; apply Hok; by apply list_elem_of_further].
    exists (child_obj c sub :: objs). split; [by rewrite <- app_assoc|].
    constructor; [|done]. exists sub. split_and!; [done| |done].
    by apply (Hok c sub (list_elem_of_here _ _)).
Qed.

(** On the tables alone, the traversal of a group that has a row meets no
    missing child: its result is a tree, one entry of [groups] per child. *)
Lemma subtree_present fuel d f id j row :
  subtree fuel d f id = Some j →
  first_group d (Some id) = Some row →
  ∃ groups,
    j = below_obj id (g_groupName row)
          (map person_obj (persons_where d id (conditions_of f))) groups ∧
    Forall2 (λ c o, ∃ sub, subtree_rec fuel d f (g_id c) = Some sub ∧
                           has_error sub = Some false ∧ o = child_obj c sub)
            (child_groups d id) groups.
Proof.
  revert id j row. induction fuel as [|fuel IH]; intros id j row H Hrow.
  - rewrite subtree_unfold in H. unfold subtree_step in H. rewrite Hrow in H.
    destruct (subtree_children _ _ _) as [r|] eqn:Hc; [|done].
    apply subtree_children_all in Hc as (objs & -> & Hall); [|done].
    simplify_eq. by exists objs.
  - rewrite subtree_unfold in H. unfold subtree_step in H. rewrite Hrow in H.
    destruct (subtree_children _ _ _) as [r|] eqn:Hc; [|done].
    apply subtree_children_all in Hc as (objs & -> & Hall).
    + simplify_eq. by exists objs.
    + intros c sub Hc' Hsub. destruct (child_groups_first _ _ _ Hc') as [crow Hcrow].
      destruct (IH _ _ _ Hsub Hcrow) as (gs & -> & _). done.
Qed.

Lemma Forall2_elem_of_r {A B} (R : A → B → Prop) l k y :
  Forall2 R l k → y ∈ k → ∃ x, x ∈ l ∧ R x y.
Proof.
  induction 1 as [|x y' l k HR Hall IH]; [by intros ?%elem_of_nil|].
  intros [->|Hy]%elem_of_cons.
  - exists x. split; [apply list_elem_of_here | done].
  - destruct (IH Hy) as (x' & Hx' & HR'). exists x'. split; [by apply list_elem_of_further|done].
Qed.

Lemma groups_items_below_obj id name persons groups :
  groups_items (below_obj id name persons groups) = groups.
Proof. reflexivity. Qed.

Lemma LevelOK_below_obj d f id name groups :
  LevelOK d f (below_obj id name (map person_obj (persons_where d id (conditions_of f))) groups).
Proof. exists id. split; [done|]. by rewrite persons_where_assigned. Qed.

Lemma child_obj_below_obj c id name persons groups :
  child_obj c (below_obj id name persons groups)
  = below_obj (g_id c) (g_groupName c) persons groups.
Proof. reflexivity. Qed.

(** Every level of the result holds the matching persons of its group. *)
Lemma subtree_levels fuel d f id j row :
  subtree fuel d f id = Some j →
  first_group d (Some id) = Some row →
  ∀ m, SubReaches j m → LevelOK d f m.
Proof.
  revert id j row. induction fuel as [|fuel IH]; intros id j row H Hrow m Hm;
    destruct (subtree_present _ _ _ _ _ _ H Hrow) as (groups & -> & Hall).
  - inversion Hm as [|n c m' Hc Hreach]; subst; [apply LevelOK_below_obj|].
    rewrite groups_items_below_obj in Hc.
    destruct (Forall2_elem_of_r _ _ _ _ Hall Hc) as (cr & _ & sub & Hsub & _). done.
  - inversion Hm as [|n c m' Hc Hreach]; subst; [apply LevelOK_below_obj|].
    rewrite groups_items_below_obj in Hc.
    destruct (Forall2_elem_of_r _ _ _ _ Hall Hc) as (cr & Hcr & sub & Hsub & _ & ->).
    cbn [subtree_rec] in Hsub.
    destruct (child_groups_first _ _ _ Hcr) as [crow Hcrow].
    destruct (subtree_present _ _ _ _ _ _ Hsub Hcrow) as (gs & Hshape & _).
    rewrite Hshape, child_obj_below_obj in Hreach.
    inversion Hreach as [|n c' m'' Hc' Hreach']; subst.
    + apply LevelOK_below_obj.
    + rewrite groups_items_below_obj in Hc'.
      eapply (IH _ _ _ Hsub Hcrow). eapply sub_down; [|exact Hreach'].
      by rewrite groups_items_below_obj.
Qed.

Lemma subtree_children_returns (rec : Z → option json) cs acc :
  (∀ c, c ∈ cs → ∃ sub, rec (g_id c) = Some sub ∧ has_error sub = Some false) →
  is_Some (subtree_children rec cs acc).
Proof.
  revert acc. induction cs as [|c cs IH]; intros acc Hall; [by eexists|].
  cbn. destruct (Hall c (list_elem_of_here _ _)) as (sub & -> & ->).
  apply IH. intros c' Hc'. apply Hall. by apply list_elem_of_further.
Qed.

(** On tables without a cycle the traversal returns once the fuel reaches
    the rank of the group. *)
Lemma subtree_returns rank d f :
  ranked rank (group_table d) →
  ∀ n id, (rank id ≤ n)%nat → is_Some (subtree n d f id).
Proof.
  intros Hrank n. induction n as [|n IH]; intros id Hid.
  - rewrite subtree_unfold. unfold subtree_step.
    destruct (first_group d (Some id)) as [row|]; [|by eexists].
    destruct (subtree_children_returns (subtree_rec 0 d f) (child_groups d id) [])
      as [[e|groups] ->]; [|by eexists..].
    intros c Hc. specialize (Hrank c id (child_groups_table _ _ _ Hc)
                               (child_groups_parent _ _ _ Hc)). lia.
  - rewrite subtree_unfold. unfold subtree_step.
    destruct (first_group d (Some id)) as [row|]; [|by eexists].
    destruct (subtree_children_returns (subtree_rec (S n) d f) (child_groups d id) [])
      as [[e|groups] ->]; [|by eexists..].
    intros c Hc. specialize (Hrank c id (child_groups_table _ _ _ Hc)
                               (child_groups_parent _ _ _ Hc)).
    destruct (IH (g_id c)) as [sub Hsub]; [lia|].
    exists sub. split; [exact Hsub|].
    destruct (child_groups_first _ _ _ Hc) as [crow Hcrow].
    by destruct (subtree_present _ _ _ _ _ _ Hsub Hcrow) as (gs & -> & _).
Qed.

(** ** The cached traversal computes what the tables hold *)

Lemma coherent_count_query f st : coherent f st → coherent f (count_query st).
Proof. done. Qed.

Lemma coherent_setex f st id j :
  coherent f st →
  (∃ fuel, subtree fuel (db st) f id = Some j) →
  coherent f (redis_setex (below_cacheKey id f) DEFAULT_EXPIRATION j st).
Proof.
  intros Hco Hj id' j' Hget. destruct (decide (id' = id)) as [->|Hne].
  - rewrite redis_get_setex_eq in Hget by done. by simplify_eq.
  - rewrite redis_get_setex_ne in Hget; [by apply Hco|].
    intros Hkey. by apply (below_cacheKey_inj f) in Hkey.
Qed.

Lemma coherent_empty f d t q : coherent f (mkState d ∅ t q).
Proof. intros id j H. unfold redis_get in H. cbn in H. by rewrite lookup_empty in H. Qed.

Section Refinement.
Variable d : Database.
Variable f : list FilterCriteria.

Lemma child_loop_refines rec_code rec_spec :
  refines d f rec_code rec_spec →
  ∀ cs acc r st, db st = d → coherent f st →
    subtree_children rec_spec cs acc = Some r →
    ∃ st', child_loop rec_code cs acc st = Some (Resolved r, st') ∧
           db st' = d ∧ coherent f st'.
Proof.
  intros Href cs. induction cs as [|c cs IH]; intros acc r st Hdb Hco H.
  - cbn in *. simplify_eq. by exists st.
  - cbn in *. destruct (rec_spec (g_id c)) as [j|] eqn:Hspec; [|done].
    destruct (Href _ _ _ Hdb Hco Hspec) as (st1 & -> & Hdb1 & Hco1).
    destruct (has_error j) as [[|]|]; [|by apply IH|done].
    simplify_eq. by exists st1.
Qed.

Lemma below_step_refines rec_code rec_spec id j st :
  refines d f rec_code rec_spec →
  db st = d → coherent f st →
  subtree_step rec_spec d f id = Some j →
  (∃ fuel, subtree fuel d f id = Some j) →
  ∃ st', getOrSetCache (below_cacheKey id f) (below_compute rec_code id f) st
           = Some (Resolved j, st') ∧
         db st' = d ∧ coherent f st'.
Proof.
  intros Href Hdb Hco Hstep [fuel Hfuel].
  destruct (redis_get (below_cacheKey id f) st) as [j'|] eqn:Hget.
  - rewrite (getOrSetCache_hit _ _ _ _ Hget).
    destruct (Hco _ _ Hget) as [fuel' Hfuel']. rewrite Hdb in Hfuel'.
    rewrite (subtree_det _ _ _ _ _ _ _ Hfuel' Hfuel). by exists st.
  - rewrite getOrSetCache_miss by done.
    assert (Hcached : ∀ st4, db st4 = d → coherent f st4 →
              ∃ st', Some (Resolved j, redis_setex (below_cacheKey id f) DEFAULT_EXPIRATION j st4)
                       = Some (Resolved j, st') ∧ db st' = d ∧ coherent f st').
    { intros st4 Hdb4 Hco4. eexists. split; [done|]. split; [done|].
      apply coherent_setex; [done|]. exists fuel. by rewrite Hdb4. }
    unfold subtree_step in Hstep.
    destruct (first_group d (Some id)) as [row|] eqn:Hrow.
    + rewrite (below_compute_present _ _ _ _ row) by by rewrite Hdb.
      rewrite Hdb.
      destruct (subtree_children rec_spec (child_groups d id) []) as [r|] eqn:Hc; [|done].
      destruct (child_loop_refines _ _ Href _ _ _
                  (count_query (count_query (count_query st))) Hdb Hco Hc)
        as (st4 & -> & Hdb4 & Hco4).
      destruct r as [e|groups]; simplify_eq; by apply Hcached.
    + rewrite below_compute_absent by by rewrite Hdb.
      simplify_eq. by apply Hcached.
Qed.

Lemma fetchGroupHierarchyBelow_refines fuel :
  refines d f (λ id, fetchGroupHierarchyBelow fuel id f) (subtree fuel d f).
Proof.
  induction fuel as [|fuel IH]; intros id j st Hdb Hco H;
    rewrite fetchGroupHierarchyBelow_unfold;
    (eapply below_step_refines; [|done|done|by rewrite <- subtree_unfold|by eexists]).
  - by intros ? ? ? ? ? ?.
  - exact IH.
Qed.
End Refinement.




(** A person write leaves the subtree entries in place: after a person has
    joined group 2 the cached subtree of group 2 is served without them, and
    the cache no longer agrees with the tables. *)
Example subtree_entry_survives_createPerson :
  let st1 := state_after (fetchGroupHierarchyBelow 5 2 [] demo_st) demo_st in
  let st2 := (createPerson "Carol" "C" "eng" (Some 2) st1).2 in
  fst <$> fetchGroupHierarchyBelow 5 2 [] st2
  = Some (Resolved (below_obj 2 "Child"
                      (map person_obj [mkPersonRow 7 "Alice" "A" "eng" (Some 2);
                                       mkPersonRow 8 "Bob" "B" "sales" (Some 2)]) [])) ∧
  ¬ coherent [] st2.
Proof.
  intros st1 st2. split; [vm_compute; reflexivity|].
  intros Hco.
  destruct (Hco 2 (below_obj 2 "Child"
                     (map person_obj [mkPersonRow 7 "Alice" "A" "eng" (Some 2);
                                      mkPersonRow 8 "Bob" "B" "sales" (Some 2)]) []))
    as [fuel Hfuel]; [vm_compute; reflexivity|].
  destruct (subtree_present _ _ _ _ _ (mkGroupRow 2 "Child" (Some 1) 0) Hfuel)
    as (groups & Hshape & _); [reflexivity|].
  vm_compute in Hshape. discriminate Hshape.
Qed.

(** ** The scenario of the specification *)

Example scenario_fetchAncestors :
  fst <$> fetchGroupHierarchyAbove 5 2 demo_st
  = Some (Resolved (above_obj 2 "Child" [above_obj 1 "Root" []])).
Proof. reflexivity. Qed.

Example scenario_fetchSubtree :
  fst <$> fetchGroupHierarchyBelow 5 1 [[(jobTitle, "eng")]] demo_st
  = Some (Resolved
            (below_obj 1 "Root" []
               [below_obj 2 "Child" [person_obj (mkPersonRow 7 "Alice" "A" "eng" (Some 2))] []])).
Proof. reflexivity. Qed.

(** The delete answers before its clears have completed: a read issued at
    the response is still served the stored tree; once they have completed
    the tree is read from the tables. *)
Example scenario_delete_child :
  let st1 := state_after (fetchGroupHierarchyBelow 5 1 [] demo_st) demo_st in
  let st2 := (deleteGroup 2 st1).2 in
  fst <$> fetchGroupHierarchyBelow 5 1 [] st2
  = fst <$> fetchGroupHierarchyBelow 5 1 [] demo_st ∧
  fst <$> fetchGroupHierarchyBelow 5 1 [] (settle_group_clears st2)
  = Some (Resolved (below_obj 1 "Root" [] [])).
Proof. vm_compute. done. Qed.

(* ===================================================================== *)
(** * Further properties of the helpers and the controllers *)
(* ===================================================================== *)

(** ** redis_helpers *)

(** X1. [clearKeysStartingWith] removes exactly the live keys that the
    pattern [<prefix>*] matches: afterwards such a key reads as null and
    every other key reads as before. When the prefix holds no glob character
    these are the keys that start with the prefix. The tables, the clock and
    the query counter are untouched, and with no matching key the state is
    unchanged. *)
Theorem clearKeysStartingWith_exact pfx st :
  (∀ key, redis_get key (clearKeysStartingWith pfx st)
          = if glob_match (pfx +:+ "*") key then None else redis_get key st) ∧
  (glob_free pfx = true →
   ∀ key, redis_get key (clearKeysStartingWith pfx st)
          = if String.prefix pfx key then None else redis_get key st) ∧
  db (clearKeysStartingWith pfx st) = db st ∧
  clock (clearKeysStartingWith pfx st) = clock st ∧
  queries (clearKeysStartingWith pfx st) = queries st ∧
  (redis_keys (pfx +:+ "*") st = [] → clearKeysStartingWith pfx st = st).
Proof.
  split_and!.
  - intros key. apply redis_get_clearKeys_glob.
  - intros Hfree key. by apply redis_get_clearKeys.
  - apply db_clearKeys.
  - apply clock_clearKeys.
  - unfold clearKeysStartingWith. by case_match.
  - intros Hnone. unfold clearKeysStartingWith. by rewrite Hnone.
Qed.

(** A prefix with a glob character clears more than the keys that start
    with it: [a?] also removes [abx]. *)
Example clearKeysStartingWith_glob_prefix :
  let st := mkState demo_db {[ "abx" := (JNum 1, 1000); "a?x" := (JNum 2, 1000);
                               "b" := (JNum 3, 1000) ]} 100 0 in
  redis_get "abx" (clearKeysStartingWith "a?" st) = None ∧
  redis_get "a?x" (clearKeysStartingWith "a?" st) = None ∧
  redis_get "b" (clearKeysStartingWith "a?" st) = Some (JNum 3) ∧
  String.prefix "a?" "abx" = false.
Proof.
  intros st. rewrite !redis_get_clearKeys_glob. vm_compute. done.
Qed.

(** X2. An entry written by [getOrSetCache] lives for [DEFAULT_EXPIRATION]
    seconds: after a miss whose callback resolved, the key reads as the
    resolved value at every instant before the callback's clock plus 3600
    and as null from that instant on. *)
Theorem getOrSetCache_entry_lifetime key cb st v st1 :
  redis_get key st = None →
  cb st = Some (Resolved v, st1) →
  ∃ st', getOrSetCache key cb st = Some (Resolved v, st') ∧
    ∀ t, redis_get key (at_time t st')
         = if t <? clock st1 + DEFAULT_EXPIRATION then Some v else None.
Proof.
  intros Hmiss Hcb. eexists. split.
  - rewrite getOrSetCache_miss by done. by rewrite Hcb.
  - intros t. unfold redis_get, redis_setex, at_time, live. cbn.
    by rewrite lookup_insert_eq.
Qed.

Lemma getOrSetCache_entry_lifetime_witness :
  ∃ st', getOrSetCache all_groups_cacheKey all_groups_compute demo_st
         = Some (Resolved (JArr (map group_row_obj (group_table demo_db))), st') ∧
    ∀ t, redis_get all_groups_cacheKey (at_time t st')
         = if t <? clock (count_query demo_st) + DEFAULT_EXPIRATION
           then Some (JArr (map group_row_obj (group_table demo_db))) else None.
Proof.
  apply (getOrSetCache_entry_lifetime all_groups_cacheKey all_groups_compute demo_st
           (JArr (map group_row_obj (group_table demo_db))) (count_query demo_st));
    reflexivity.
Defined.

(** X3. The key spaces do not overlap: an ancestor key is never a subtree
    key, a person key or one of the two aggregate keys, and neither is a
    subtree key; within a space, two groups share a key only if they are the
    same group. *)
Theorem cache_key_spaces_disjoint g g' f id :
  above_cacheKey g ≠ below_cacheKey g' f ∧
  above_cacheKey g ≠ person_cacheKey id ∧
  above_cacheKey g ≠ all_groups_cacheKey ∧
  above_cacheKey g ≠ all_persons_cacheKey ∧
  below_cacheKey g f ≠ person_cacheKey id ∧
  below_cacheKey g f ≠ all_groups_cacheKey ∧
  below_cacheKey g f ≠ all_persons_cacheKey ∧
  person_cacheKey id ≠ all_groups_cacheKey ∧
  person_cacheKey id ≠ all_persons_cacheKey ∧
  (above_cacheKey g = above_cacheKey g' → g = g') ∧
  (below_cacheKey g f = below_cacheKey g' f → g = g').
Proof.
  unfold above_cacheKey, below_cacheKey, person_cacheKey,
    all_groups_cacheKey, all_persons_cacheKey.
  split_and!;
    try (generalize (pretty g +:+ "}"); generalize (pretty g' +:+ "_" +:+ JSON_stringify f);
         generalize (pretty g +:+ "_" +:+ JSON_stringify f);
         intros s1 s2 s3 H; vm_compute in H; discriminate H).
  - apply above_cacheKey_inj.
  - apply (below_cacheKey_inj f).
Qed.

(** ** The descendant query and [updateGroup] *)

(** X4. When the descendant query of [updateGroup] returns, the ids it
    returns are exactly the descendants of the group: the group itself when
    it has a row, and every row whose parent pointer names a descendant. *)
Theorem descendantQuery_exact depth a st rows :
  (descendantQuery depth a st).1 = Some rows →
  ∀ b, b ∈ map g_id rows ↔ Descendant (group_table (db st)) a b.
Proof. apply descendantQuery_spec. Qed.

Lemma descendantQuery_exact_witness :
  2 ∈ map g_id [mkGroupRow 1 "Root" None 0; mkGroupRow 2 "Child" (Some 1) 0]
  ↔ Descendant (group_table (db demo_st)) 1 2.
Proof. apply (descendantQuery_exact 1000 1 demo_st). reflexivity. Defined.

(** X5. On tables whose parent pointers strictly increase a rank (no
    cycle), the descendant query returns as soon as the recursion limit of
    the server exceeds the rank of the group. *)
Theorem descendantQuery_returns_on_acyclic (rank : Z → nat) depth a st :
  ranked rank (group_table (db st)) →
  (rank a < depth)%nat →
  is_Some (descendantQuery depth a st).1.
Proof. intros Hrank. by apply descendantQuery_returns. Qed.

Lemma demo_ranked : ranked demo_rank (group_table demo_db).
Proof.
  intros g p Hin Hp. cbn in Hin.
  repeat (apply elem_of_cons in Hin as [->|Hin]); cbn in Hp; simplify_eq; cbn; try lia.
  by apply elem_of_nil in Hin.
Qed.

Lemma descendantQuery_returns_on_acyclic_witness :
  is_Some (descendantQuery 2 1 demo_st).1.
Proof.
  apply (descendantQuery_returns_on_acyclic demo_rank 2 1 demo_st).
  - exact demo_ranked.
  - cbn. lia.
Defined.

Lemma cte_iterate_cycle (P : GroupRow → Prop) groups :
  (∀ r, P r → ∃ c, c ∈ groups ∧ g_parentGroupId c = Some (g_id r) ∧ P c) →
  ∀ depth level, (∃ r, r ∈ level ∧ P r) → cte_iterate depth groups level = None.
Proof.
  intros Hcycle depth. induction depth as [|depth IH]; intros level (r & Hr & HP).
  - destruct level; [by apply elem_of_nil in Hr | done].
  - destruct level as [|r0 level]; [by apply elem_of_nil in Hr|].
    rewrite cte_iterate_S, IH; [done|].
    destruct (Hcycle r HP) as (c & Hc & Hp & HPc).
    exists c. split; [|done]. apply elem_of_cte_step. by exists r.
Qed.

Lemma db_clear_group_caches st : db (clear_group_caches st) = db st.
Proof. unfold clear_group_caches. by rewrite db_settle_group_clears. Qed.

Lemma clock_clear_group_caches st : clock (clear_group_caches st) = clock st.
Proof. unfold clear_group_caches. by rewrite clock_settle_group_clears. Qed.

Lemma updateGroup_unfold depth rejects id name pg st :
  updateGroup depth rejects id name pg st =
  if rejects 0%nat then (internal_error, count_query st)
  else
    match first_group (db st) (Some id) with
    | None => (Res 404 (error_obj "Group not found."), count_query st)
    | Some existing =>
        match pg with
        | Undefined => updateGroup_apply rejects id name pg existing (count_query st)
        | _ =>
            if rejects 1%nat then (internal_error, count_query (count_query st))
            else
              match (descendantQuery depth (g_id existing) (count_query st)).1 with
              | None => (internal_error, count_query (count_query st))
              | Some rows =>
                  if bool_decide (Number pg ∈ map g_id rows)
                  then (Res 400 (error_obj "Circular reference detected."),
                        count_query (count_query st))
                  else updateGroup_apply rejects id name pg existing
                         (count_query (count_query st))
              end
        end
    end.
Proof.
  unfold updateGroup, select_group_by_id, first_group.
  destruct (rejects 0%nat); [done|].
  destruct (head (groups_by_id (db st) (Some id))) as [existing|]; [|done].
  destruct pg; [done|..]; destruct (rejects 1%nat); try done;
    unfold descendantQuery; cbn [fst]; by destruct (cte_iterate _ _ _).
Qed.

(** X6. When the rows below the group contain a cycle (a set of rows, one
    of them a row of the group, each of which has a child in the set), the
    descendant query hits every recursion limit: a request that sends a
    [parentGroupId] is answered 500 and nothing is written, whatever
    statements the server rejects besides. *)
Theorem updateGroup_on_cycle_answers_500 (P : GroupRow → Prop) depth rejects id groupName
    parentGroupId st :
  parentGroupId ≠ Undefined →
  (∀ r, P r → ∃ c, c ∈ group_table (db st) ∧ g_parentGroupId c = Some (g_id r) ∧ P c) →
  (∃ r, r ∈ group_table (db st) ∧ g_id r = id ∧ P r) →
  (descendantQuery depth id st).1 = None ∧
  updateGroup depth no_fault id groupName parentGroupId st
  = (Res 500 (error_obj "Internal server error"), count_query (count_query st)) ∧
  ∃ st', updateGroup depth rejects id groupName parentGroupId st
         = (Res 500 (error_obj "Internal server error"), st') ∧
         db st' = db st ∧ redis st' = redis st ∧ clock st' = clock st.
Proof.
  intros Hdef Hcycle (r & Hr & Hid & HP).
  assert (Hq : ∀ st0, db st0 = db st → (descendantQuery depth id st0).1 = None).
  { intros st0 Hdb. unfold descendantQuery. cbn [fst]. rewrite Hdb.
    apply (cte_iterate_cycle P); [done|].
    exists r. split; [|done]. by apply list_elem_of_filter. }
  split; [by apply Hq|].
  assert (Hgen : ∀ rej, ∃ st',
            updateGroup depth rej id groupName parentGroupId st = (internal_error, st') ∧
            (rej 0%nat = false → rej 1%nat = false → st' = count_query (count_query st)) ∧
            db st' = db st ∧ redis st' = redis st ∧ clock st' = clock st).
  { intros rej. rewrite updateGroup_unfold. unfold first_group, groups_by_id.
    destruct (head_filter_is_Some (λ r, g_id r = id) _ r Hr Hid) as [existing Hex].
    rewrite Hex. apply head_filter_Some in Hex as [Hexid _]. rewrite Hexid.
    rewrite (Hq (count_query st) eq_refl).
    destruct (rej 0%nat), (rej 1%nat), parentGroupId; try done; by eexists. }
  split.
  - destruct (Hgen no_fault) as (st' & -> & Hst & _). by rewrite Hst.
  - destruct (Hgen rejects) as (st' & -> & _ & H). by exists st'.
Qed.

Lemma updateGroup_on_cycle_answers_500_witness :
  let st := mkState cyclic_db ∅ 100 0 in
  (descendantQuery 1000 1 st).1 = None ∧
  updateGroup 1000 no_fault 1 None (StringId 7) st
  = (Res 500 (error_obj "Internal server error"), count_query (count_query st)) ∧
  ∃ st', updateGroup 1000 (λ k, Nat.eqb k 0) 1 None (StringId 7) st
         = (Res 500 (error_obj "Internal server error"), st') ∧
         db st' = db st ∧ redis st' = redis st ∧ clock st' = clock st.
Proof.
  intros st.
  apply (updateGroup_on_cycle_answers_500 (λ r, r ∈ group_table cyclic_db) 1000
           (λ k, Nat.eqb k 0) 1 None (StringId 7) st).
  - discriminate.
  - intros r Hr. cbn in Hr.
    repeat (apply elem_of_cons in Hr as [->|Hr]).
    + exists (mkGroupRow 2 "B" (Some 1) 0). split_and!; [|done|];
        apply list_elem_of_further, list_elem_of_here.
    + exists (mkGroupRow 1 "A" (Some 2) 0). split_and!; [|done|]; apply list_elem_of_here.
    + by apply elem_of_nil in Hr.
  - exists (mkGroupRow 1 "A" (Some 2) 0). split_and!; [|done|]; apply list_elem_of_here.
Defined.

(** When [updateGroup_apply] answers 200. *)
Lemma updateGroup_apply_ok rejects id name pg existing st :
  g_id existing = id →
  status (updateGroup_apply rejects id name pg existing st).1 = 200%nat →
  ∃ F stw,
    updateGroup_apply rejects id name pg existing st
      = (Res 200 (message_obj "Group updated successfully!"), redis_del ["all_groups"] stw) ∧
    group_table (db stw) = map F (group_table (db st)) ∧
    person_table (db stw) = person_table (db st) ∧
    redis stw = redis st ∧ clock stw = clock st ∧
    ∀ r, g_id (F r) = g_id r ∧
         g_parentGroupId (F r)
           = (if bool_decide (g_id r = id)
              then match pg with Undefined => g_parentGroupId r | _ => sql_param pg end
              else g_parentGroupId r) ∧
         g_groupName (F r)
           = (if bool_decide (g_id r = id) && truthy name
              then default "" name else g_groupName r).
Proof.
  intros Hid. unfold updateGroup_apply. rewrite Hid.
  destruct pg as [| |n|n]; cbn [strict_eq_number sql_param];
    destruct (truthy name) eqn:Hname;
    try (destruct (bool_decide (n = id)) eqn:Hneq);
    try destruct (rejects 2%nat); try destruct (rejects 3%nat); try destruct (rejects 4%nat);
    cbn; intros Hok; try discriminate Hok;
    (eexists _, _; split; [reflexivity|]; cbn; rewrite ?map_map;
     split; [reflexivity|]; split_and!; try done; intros r; cbn;
     repeat (case_bool_decide; simplify_eq; cbn); try done).
  all: try congruence.
Qed.

(** What [updateGroup_apply] does on every path: rows are neither added nor
    removed, ids are kept, and the person table and the clock are untouched. *)
Lemma updateGroup_apply_effect rejects id name pg existing st :
  ∃ F, group_table (db (updateGroup_apply rejects id name pg existing st).2)
         = map F (group_table (db st)) ∧
       person_table (db (updateGroup_apply rejects id name pg existing st).2)
         = person_table (db st) ∧
       clock (updateGroup_apply rejects id name pg existing st).2 = clock st ∧
       ∀ x, g_id (F x) = g_id x.
Proof.
  unfold updateGroup_apply.
  destruct pg as [| |n|n]; cbn [strict_eq_number sql_param];
    destruct (truthy name) eqn:Hname;
    try (destruct (bool_decide (n = g_id existing)) eqn:Hneq);
    try destruct (rejects 2%nat); try destruct (rejects 3%nat); try destruct (rejects 4%nat);
    cbn;
    first [ by (exists (λ x, x); rewrite map_id)
          | (eexists; split; [rewrite ?map_map; reflexivity|]; split_and!; try done;
             intros x; cbn; repeat (case_bool_decide; cbn); done) ].
Qed.

(** When [updateGroup_apply] does not answer 200: Redis is as before, and
    so are the tables unless the answer is the 500 of an UPDATE rejected
    after an earlier UPDATE was committed. *)
Lemma updateGroup_apply_not_200 rejects id name pg existing st :
  status (updateGroup_apply rejects id name pg existing st).1 ≠ 200%nat →
  redis (updateGroup_apply rejects id name pg existing st).2 = redis st ∧
  clock (updateGroup_apply rejects id name pg existing st).2 = clock st ∧
  (status (updateGroup_apply rejects id name pg existing st).1 ≠ 500%nat ∨
   (rejects 3%nat = false ∧ rejects 4%nat = false) →
   db (updateGroup_apply rejects id name pg existing st).2 = db st).
Proof.
  unfold updateGroup_apply.
  destruct pg as [| |n|n]; cbn [strict_eq_number sql_param];
    destruct (truthy name) eqn:Hname;
    try (destruct (bool_decide (n = g_id existing)) eqn:Hneq);
    try destruct (rejects 2%nat); try destruct (rejects 3%nat); try destruct (rejects 4%nat);
    cbn; intros Hst; try (by destruct Hst);
    (split_and!; [done | done | intros [Hs|[H3 H4]]; first [done | by destruct Hs]]).
Qed.

Lemma root_in_descendants depth existing st rows :
  existing ∈ group_table (db st) →
  (descendantQuery depth (g_id existing) st).1 = Some rows →
  g_id existing ∈ map g_id rows.
Proof.
  intros Hin Hq. apply (descendantQuery_spec _ _ _ _ Hq). by eapply desc_self.
Qed.

Lemma first_group_elem d id row : first_group d (Some id) = Some row → row ∈ group_table d.
Proof. unfold first_group, groups_by_id. by intros [_ ?]%head_filter_Some. Qed.

Lemma updateGroup_not_200 depth rejects id groupName parentGroupId st :
  status (updateGroup depth rejects id groupName parentGroupId st).1 ≠ 200%nat →
  redis (updateGroup depth rejects id groupName parentGroupId st).2 = redis st ∧
  clock (updateGroup depth rejects id groupName parentGroupId st).2 = clock st ∧
  (status (updateGroup depth rejects id groupName parentGroupId st).1 ≠ 500%nat ∨
   (rejects 3%nat = false ∧ rejects 4%nat = false) →
   db (updateGroup depth rejects id groupName parentGroupId st).2 = db st).
Proof.
  rewrite updateGroup_unfold.
  destruct (rejects 0%nat); [done|].
  destruct (first_group (db st) (Some id)) as [existing|]; [|done].
  assert (Happly : ∀ st0, db st0 = db st → redis st0 = redis st → clock st0 = clock st →
            status (updateGroup_apply rejects id groupName parentGroupId existing st0).1
              ≠ 200%nat →
            redis (updateGroup_apply rejects id groupName parentGroupId existing st0).2
              = redis st ∧
            clock (updateGroup_apply rejects id groupName parentGroupId existing st0).2
              = clock st ∧
            (status (updateGroup_apply rejects id groupName parentGroupId existing st0).1
               ≠ 500%nat ∨ (rejects 3%nat = false ∧ rejects 4%nat = false) →
             db (updateGroup_apply rejects id groupName parentGroupId existing st0).2
               = db st)).
  { intros st0 Hdb Hredis Hclock Hst.
    destruct (updateGroup_apply_not_200 _ _ _ _ _ _ Hst) as (-> & -> & Hd).
    split_and!; [done..|]. intros H. by rewrite Hd. }
  destruct parentGroupId; [by apply Happly|..];
    (destruct (rejects 1%nat); [done|];
     destruct (descendantQuery _ _ _).1 as [rows|]; [|done];
     case_bool_decide; [done | by apply Happly]).
Qed.

Lemma updateGroup_effect depth rejects id groupName parentGroupId st :
  ∃ F, group_table (db (updateGroup depth rejects id groupName parentGroupId st).2)
         = map F (group_table (db st)) ∧
       person_table (db (updateGroup depth rejects id groupName parentGroupId st).2)
         = person_table (db st) ∧
       clock (updateGroup depth rejects id groupName parentGroupId st).2 = clock st ∧
       ∀ x, g_id (F x) = g_id x.
Proof.
  assert (Hsame : ∀ r : Response * State, db r.2 = db st → clock r.2 = clock st →
            ∃ F, group_table (db r.2) = map F (group_table (db st)) ∧
                 person_table (db r.2) = person_table (db st) ∧
                 clock r.2 = clock st ∧ ∀ x, g_id (F x) = g_id x).
  { intros r -> ->. exists (λ x, x). by rewrite map_id. }
  rewrite updateGroup_unfold.
  destruct (rejects 0%nat); [by apply Hsame|].
  destruct (first_group (db st) (Some id)) as [existing|]; [|by apply Hsame].
  assert (Happly : ∀ st0, db st0 = db st → clock st0 = clock st →
    ∃ F, group_table (db (updateGroup_apply rejects id groupName parentGroupId existing st0).2)
           = map F (group_table (db st)) ∧
         person_table (db (updateGroup_apply rejects id groupName parentGroupId existing st0).2)
           = person_table (db st) ∧
         clock (updateGroup_apply rejects id groupName parentGroupId existing st0).2
           = clock st ∧
         ∀ x, g_id (F x) = g_id x).
  { intros st0 Hdb Hclock.
    destruct (updateGroup_apply_effect rejects id groupName parentGroupId existing st0)
      as (F & H1 & H2 & H3 & H4).
    exists F. by rewrite H1, H2, H3, Hdb, Hclock. }
  destruct parentGroupId; [by apply Happly|..];
    (destruct (rejects 1%nat); [by apply Hsame|];
     destruct (descendantQuery _ _ _).1 as [rows|]; [|by apply Hsame];
     case_bool_decide; [by apply Hsame | by apply Happly]).
Qed.

(** X7. The answers of [updateGroup] that are not 200. Redis and the clock
    are those of before the request: no key is deleted. The tables are
    those of before the request when the answer is 400 or 404, and when it
    is the 500 of the SELECT, of the descendant query or of the first
    UPDATE. A 500 that follows a committed UPDATE leaves that UPDATE in the
    tables: when the server rejects the final UPDATE of a request that moves
    group 2 under group 3, the answer is 500 and group 2 is left without a
    parent. *)
Theorem updateGroup_failure_paths :
  (∀ depth rejects id groupName parentGroupId st,
     status (updateGroup depth rejects id groupName parentGroupId st).1 ≠ 200%nat →
     redis (updateGroup depth rejects id groupName parentGroupId st).2 = redis st ∧
     clock (updateGroup depth rejects id groupName parentGroupId st).2 = clock st ∧
     (status (updateGroup depth rejects id groupName parentGroupId st).1 ≠ 500%nat ∨
      (rejects 3%nat = false ∧ rejects 4%nat = false) →
      db (updateGroup depth rejects id groupName parentGroupId st).2 = db st)) ∧
  (let answer := updateGroup 1000 (λ k, Nat.eqb k 4) 2 None (StringId 3) demo_st in
   answer.1 = Res 500 (error_obj "Internal server error") ∧
   first_group (db demo_st) (Some 2) = Some (mkGroupRow 2 "Child" (Some 1) 0) ∧
   first_group (db answer.2) (Some 2) = Some (mkGroupRow 2 "Child" None 0) ∧
   first_group (db answer.2) (Some 3) = Some (mkGroupRow 3 "Other" None 100)) ∧
  (let answer := updateGroup 1000 (λ k, Nat.eqb k 3) 2 None (StringId 3) demo_st in
   answer.1 = Res 500 (error_obj "Internal server error") ∧
   first_group (db answer.2) (Some 2) = Some (mkGroupRow 2 "Child" None 0)).
Proof.
  split; [|split; vm_compute; done].
  intros. by apply updateGroup_not_200.
Qed.

(** X8. [updateGroup] answers 404 exactly when the SELECT completes and the
    group has no row, and it never answers with the error [Error updating
    group.]: a request that names the group as its own parent is already
    refused by the circular-reference check, the group being among its own
    descendants. *)
Theorem updateGroup_404_and_dead_branch depth rejects id groupName parentGroupId st :
  (status (updateGroup depth rejects id groupName parentGroupId st).1 = 404%nat
   ↔ rejects 0%nat = false ∧ first_group (db st) (Some id) = None) ∧
  (status (updateGroup depth no_fault id groupName parentGroupId st).1 = 404%nat
   ↔ first_group (db st) (Some id) = None) ∧
  body (updateGroup depth rejects id groupName parentGroupId st).1
    ≠ error_obj "Error updating group.".
Proof.
  assert (Hgen : ∀ rej,
    (status (updateGroup depth rej id groupName parentGroupId st).1 = 404%nat
     ↔ rej 0%nat = false ∧ first_group (db st) (Some id) = None) ∧
    body (updateGroup depth rej id groupName parentGroupId st).1
      ≠ error_obj "Error updating group.").
  { intros rej. rewrite updateGroup_unfold.
    destruct (rej 0%nat) eqn:H0;
      [split; [split; [cbn; discriminate | by intros [? _]] | done]|].
    destruct (first_group (db st) (Some id)) as [existing|] eqn:Hex; [|done].
    assert (Happly : ∀ st0,
              strict_eq_number parentGroupId (g_id existing) = false →
              status (updateGroup_apply rej id groupName parentGroupId existing st0).1
                ≠ 404%nat ∧
              body (updateGroup_apply rej id groupName parentGroupId existing st0).1
                ≠ error_obj "Error updating group.").
    { intros st0 Hneq. unfold updateGroup_apply. rewrite Hneq.
      destruct parentGroupId, (truthy groupName);
        try destruct (rej 2%nat); try destruct (rej 3%nat); try destruct (rej 4%nat);
        cbn; done. }
    assert (Hgoal : ∀ r : Response * State,
              status r.1 ≠ 404%nat ∧ body r.1 ≠ error_obj "Error updating group." →
              (status r.1 = 404%nat ↔ false = false ∧ Some existing = None) ∧
              body r.1 ≠ error_obj "Error updating group.").
    { intros r [H1 H2]. split; [|done]. split; [done|]. by intros [_ ?]. }
    apply Hgoal.
    destruct parentGroupId as [| |n|n]; [by apply Happly|..];
      (destruct (rej 1%nat); [done|];
       destruct (descendantQuery _ _ _).1 as [rows|] eqn:Hq; [|done];
       case_bool_decide as Hin; [done|]; apply Happly; try done).
    cbn. case_bool_decide as Heq; [|done]. subst n. exfalso. apply Hin.
    eapply root_in_descendants; [|exact Hq]. by eapply first_group_elem. }
  split_and!.
  - apply Hgen.
  - destruct (Hgen no_fault) as [-> _]. split; [by intros [_ ?] | done].
  - apply Hgen.
Qed.

(** X9. [updateGroup] never adds or removes a row and never changes an id:
    the ids of the group table, in table order, and the person table are
    the same after every request, whatever its answer. *)
Theorem updateGroup_keeps_ids depth rejects id groupName parentGroupId st :
  map g_id (group_table (db (updateGroup depth rejects id groupName parentGroupId st).2))
    = map g_id (group_table (db st)) ∧
  person_table (db (updateGroup depth rejects id groupName parentGroupId st).2)
    = person_table (db st).
Proof.
  destruct (updateGroup_effect depth rejects id groupName parentGroupId st)
    as (F & -> & -> & _ & HF).
  split; [|done]. rewrite map_map. by apply map_ext.
Qed.

(** What a request answered 200 did. *)
Lemma updateGroup_ok depth rejects id name pg st :
  status (updateGroup depth rejects id name pg st).1 = 200%nat →
  ∃ existing F stw,
    first_group (db st) (Some id) = Some existing ∧
    (updateGroup depth rejects id name pg st).2 = redis_del ["all_groups"] stw ∧
    group_table (db stw) = map F (group_table (db st)) ∧
    person_table (db stw) = person_table (db st) ∧
    redis stw = redis st ∧ clock stw = clock st ∧
    (∀ r, g_id (F r) = g_id r ∧
          g_parentGroupId (F r)
            = (if bool_decide (g_id r = id)
               then match pg with Undefined => g_parentGroupId r | _ => sql_param pg end
               else g_parentGroupId r) ∧
          g_groupName (F r)
            = (if bool_decide (g_id r = id) && truthy name
               then default "" name else g_groupName r)) ∧
    (pg ≠ Undefined →
     ∃ rows, (descendantQuery depth id st).1 = Some rows ∧ Number pg ∉ map g_id rows).
Proof.
  rewrite updateGroup_unfold.
  destruct (rejects 0%nat); [cbn; discriminate|].
  destruct (first_group (db st) (Some id)) as [existing|] eqn:Hex; [|cbn; discriminate].
  pose proof (first_group_id _ _ _ Hex) as Hid.
  assert (Happly : ∀ st0, db st0 = db st → redis st0 = redis st → clock st0 = clock st →
            (pg ≠ Undefined →
             ∃ rows, (descendantQuery depth id st).1 = Some rows ∧
                     Number pg ∉ map g_id rows) →
            status (updateGroup_apply rejects id name pg existing st0).1 = 200%nat →
            ∃ existing' F stw,
              Some existing = Some existing' ∧
              (updateGroup_apply rejects id name pg existing st0).2
                = redis_del ["all_groups"] stw ∧
              group_table (db stw) = map F (group_table (db st)) ∧
              person_table (db stw) = person_table (db st) ∧
              redis stw = redis st ∧ clock stw = clock st ∧
              (∀ r, g_id (F r) = g_id r ∧
                    g_parentGroupId (F r)
                      = (if bool_decide (g_id r = id)
                         then match pg with
                              | Undefined => g_parentGroupId r
                              | _ => sql_param pg
                              end
                         else g_parentGroupId r) ∧
                    g_groupName (F r)
                      = (if bool_decide (g_id r = id) && truthy name
                         then default "" name else g_groupName r)) ∧
              (pg ≠ Undefined →
               ∃ rows, (descendantQuery depth id st).1 = Some rows ∧
                       Number pg ∉ map g_id rows)).
  { intros st0 Hdb Hredis Hclock Hq Hok.
    destruct (updateGroup_apply_ok rejects id name pg existing st0 Hid Hok)
      as (F & stw & Heq & Htab & Hpers & Hr & Hc & HF).
    exists existing, F, stw. rewrite Heq. cbn [snd].
    rewrite Htab, Hpers, Hr, Hc, Hdb, Hredis, Hclock. by split_and!. }
  destruct pg as [| |n|n]; [by apply Happly|..];
    (destruct (rejects 1%nat); [cbn; discriminate|];
     destruct (descendantQuery depth (g_id existing) (count_query st)).1 as [rows|] eqn:Hq;
       [|cbn; discriminate];
     case_bool_decide as Hin; [cbn; discriminate|];
     apply Happly; [done..|]; intros _; exists rows; by rewrite <- Hid).
Qed.

Lemma db_redis_del keys st : db (redis_del keys st) = db st.
Proof. done. Qed.

(** X10. A re-parenting that [updateGroup] accepts keeps the parent
    pointers free of cycles: when they strictly increased a rank before the
    request and the answer is 200, they strictly increase a rank after it. *)
Theorem updateGroup_keeps_acyclic (rank : Z → nat) depth rejects id groupName
    parentGroupId st :
  ranked rank (group_table (db st)) →
  status (updateGroup depth rejects id groupName parentGroupId st).1 = 200%nat →
  ∃ rank', ranked rank'
             (group_table (db (updateGroup depth rejects id groupName parentGroupId st).2)).
Proof.
  intros Hrank Hok.
  destruct (updateGroup_ok _ _ _ _ _ _ Hok)
    as (existing & F & stw & Hex & -> & Htab & _ & _ & _ & HF & Hq).
  rewrite db_redis_del, Htab.
  assert (parentGroupId = Undefined ∨ parentGroupId ≠ Undefined) as [->|Hdef]
    by (destruct parentGroupId; (by left) || (by right)).
  - exists rank. intros g' p (r & -> & Hr)%list_elem_of_fmap Hp.
    destruct (HF r) as (Hid & Hparent & _). rewrite Hid.
    apply (Hrank r p Hr). rewrite <- Hp, Hparent. by case_bool_decide.
  - destruct (Hq Hdef) as (rows & Hrows & Hnotin).
    pose proof (descendantQuery_spec _ _ _ _ Hrows) as Hspec.
    exists (λ x, if bool_decide (x ∈ map g_id rows) then rank x
                 else (rank x + rank id + 1)%nat).
    intros g' p (r & -> & Hr)%list_elem_of_fmap Hp.
    destruct (HF r) as (Hid & Hparent & _). rewrite Hid. rewrite Hparent in Hp.
    case_bool_decide as Hrid.
    + assert (p = Number parentGroupId) as ->
        by (destruct parentGroupId; cbn in Hp; by simplify_eq).
      rewrite Hrid.
      rewrite (bool_decide_eq_true_2 (id ∈ map g_id rows)).
      * rewrite bool_decide_eq_false_2 by done. lia.
      * apply Hspec. eapply desc_self; [by eapply first_group_elem|].
        by eapply first_group_id.
    + pose proof (Hrank r p Hr Hp) as Hlt.
      destruct (decide (p ∈ map g_id rows)) as [Hpin|Hpout].
      * rewrite (bool_decide_eq_true_2 (p ∈ _)) by done.
        rewrite (bool_decide_eq_true_2 (g_id r ∈ _)); [done|].
        apply Hspec. eapply desc_child; [by apply Hspec| done | done].
      * rewrite (bool_decide_eq_false_2 (p ∈ _)) by done. case_bool_decide; lia.
Qed.

Lemma updateGroup_keeps_acyclic_witness :
  ∃ rank', ranked rank'
             (group_table (db (updateGroup 1000 no_fault 2 None (StringId 3) demo_st).2)).
Proof.
  apply (updateGroup_keeps_acyclic demo_rank 1000 no_fault 2 None (StringId 3) demo_st).
  - exact demo_ranked.
  - reflexivity.
Defined.

Lemma filter_map_comm {A} (P : A → Prop) `{!∀ x, Decision (P x)} (F : A → A) l :
  (∀ x, P (F x) ↔ P x) → filter P (map F l) = map F (filter P l).
Proof.
  intros HP. induction l as [|x l IH]; [done|]. cbn [map].
  rewrite !filter_cons, IH.
  destruct (decide (P (F x))) as [H1|H1], (decide (P x)) as [H2|H2]; try done.
  - exfalso. apply H2. by apply HP.
  - exfalso. apply H1. by apply HP.
Qed.

Lemma first_group_map F T P id :
  (∀ r, g_id (F r) = g_id r) →
  first_group (mkDatabase (map F T) P) (Some id) = F <$> first_group (mkDatabase T P) (Some id).
Proof.
  intros HF. unfold first_group, groups_by_id. cbn [group_table].
  rewrite (filter_map_comm (λ r, g_id r = id)); [|intros r; by rewrite HF].
  by destruct (filter _ T).
Qed.

(** X11. A request answered 200 took effect and touched nothing else: the
    row of the group then carries the parent that was sent (when one was
    sent) and the name that was sent (when a non-empty one was sent), and
    the row of every other group keeps its name and its parent. *)
Theorem updateGroup_read_back depth rejects id groupName parentGroupId st :
  status (updateGroup depth rejects id groupName parentGroupId st).1 = 200%nat →
  let d' := db (updateGroup depth rejects id groupName parentGroupId st).2 in
  (∃ old new,
     first_group (db st) (Some id) = Some old ∧ first_group d' (Some id) = Some new ∧
     g_parentGroupId new = match parentGroupId with
                           | Undefined => g_parentGroupId old
                           | _ => sql_param parentGroupId
                           end ∧
     g_groupName new = if truthy groupName then default "" groupName else g_groupName old) ∧
  ∀ other, other ≠ id →
    g_parentGroupId <$> first_group d' (Some other)
      = g_parentGroupId <$> first_group (db st) (Some other) ∧
    g_groupName <$> first_group d' (Some other)
      = g_groupName <$> first_group (db st) (Some other).
Proof.
  intros Hok d'.
  destruct (updateGroup_ok _ _ _ _ _ _ Hok)
    as (existing & F & stw & Hex & Hst & Htab & Hpers & _ & _ & HF & _).
  assert (Hfirst : ∀ j, first_group d' (Some j) = F <$> first_group (db st) (Some j)).
  { intros j. unfold d'. rewrite Hst, db_redis_del.
    destruct (db stw) as [T' P'] eqn:Hdb. cbn in Htab, Hpers. subst T' P'.
    destruct (db st) as [T P]. cbn [group_table person_table].
    apply first_group_map. intros r. apply HF. }
  split.
  - exists existing, (F existing). rewrite Hfirst, Hex. split_and!; [done..| |].
    + destruct (HF existing) as (_ & -> & _).
      by rewrite (first_group_id _ _ _ Hex), bool_decide_eq_true_2.
    + destruct (HF existing) as (_ & _ & ->).
      by rewrite (first_group_id _ _ _ Hex), bool_decide_eq_true_2.
  - intros other Hne. rewrite Hfirst.
    destruct (first_group (db st) (Some other)) as [r|] eqn:Hr; [|done]. cbn.
    destruct (HF r) as (_ & -> & ->).
    rewrite (first_group_id _ _ _ Hr), bool_decide_eq_false_2 by done. done.
Qed.

Lemma updateGroup_read_back_witness :
  let d' := db (updateGroup 1000 no_fault 2 (Some "Kid") (StringId 3) demo_st).2 in
  ∃ old new,
    first_group (db demo_st) (Some 2) = Some old ∧ first_group d' (Some 2) = Some new ∧
    g_parentGroupId new = Some 3 ∧ g_groupName new = "Kid".
Proof.
  intros d'.
  destruct (updateGroup_read_back 1000 no_fault 2 (Some "Kid") (StringId 3) demo_st eq_refl)
    as [(old & new & H1 & H2 & H3 & H4) _].
  exists old, new. split_and!; [exact H1 | exact H2 | exact H3 | exact H4].
Defined.

(** ** Subtree reads after group writes *)

Lemma coherent_clear_group_caches f st : coherent f (clear_group_caches st).
Proof. intros id j H. by rewrite clear_group_caches_below in H. Qed.

Lemma reads_fresh_after_clear st : reads_fresh_subtrees (clear_group_caches st).
Proof.
  intros rank g f fuel Hrank Hfuel.
  destruct (subtree_returns rank _ f Hrank fuel g Hfuel) as [node Hnode].
  destruct (fetchGroupHierarchyBelow_refines _ f fuel g node (clear_group_caches st)
              eq_refl (coherent_clear_group_caches f st) Hnode) as (st' & Hcall & _).
  by exists node, st'.
Qed.

Lemma redis_get_ext key st1 st2 :
  redis st1 = redis st2 → clock st1 = clock st2 → redis_get key st1 = redis_get key st2.
Proof. unfold redis_get. by intros -> ->. Qed.

Lemma below_key_not_all_groups g f : below_cacheKey g f ∉ ["all_groups"].
Proof.
  intros Hin%list_elem_of_singleton. pose proof (below_key_prefix g f) as Hp.
  rewrite Hin in Hp. vm_compute in Hp. discriminate Hp.
Qed.

(** At the response of a group write the subtree keys read as before the
    write. *)
Lemma below_entry_at_response_createGroup name parent st g f :
  redis_get (below_cacheKey g f) (createGroup name parent st).2
  = redis_get (below_cacheKey g f) st.
Proof.
  unfold createGroup. cbn [snd].
  by rewrite redis_get_del_other by apply below_key_not_all_groups.
Qed.

Lemma below_entry_at_response_deleteGroup id st g f :
  redis_get (below_cacheKey g f) (deleteGroup id st).2 = redis_get (below_cacheKey g f) st.
Proof.
  unfold deleteGroup. cbn [snd].
  by rewrite redis_get_del_other by apply below_key_not_all_groups.
Qed.

Lemma below_entry_at_response_updateGroup depth rejects id name pg st g f :
  redis_get (below_cacheKey g f) (updateGroup depth rejects id name pg st).2
  = redis_get (below_cacheKey g f) st.
Proof.
  destruct (decide (status (updateGroup depth rejects id name pg st).1 = 200%nat))
    as [Hok|Hno].
  - destruct (updateGroup_ok _ _ _ _ _ _ Hok) as (? & ? & stw & _ & -> & _ & _ & Hr & Hc & _).
    rewrite redis_get_del_other by apply below_key_not_all_groups.
    by apply redis_get_ext.
  - destruct (updateGroup_not_200 _ _ _ _ _ _ Hno) as (Hr & Hc & _). by apply redis_get_ext.
Qed.

(** X12. A group write answers before its two prefix clears have
    completed. At the response of [createGroup], of [deleteGroup] and of
    [updateGroup] every subtree key still reads as it did before the write,
    so that a read issued then is served the entry it finds. Once the clears
    have completed no subtree entry is left: on tables without a cycle the
    next [fetchGroupHierarchyBelow], for any group and filters, resolves
    with what the traversal computes on the tables as written. *)
Theorem group_writes_then_subtree_reads :
  (∀ groupName parentGroupId st,
     reads_fresh_subtrees (settle_group_clears (createGroup groupName parentGroupId st).2) ∧
     ∀ g f, redis_get (below_cacheKey g f) (createGroup groupName parentGroupId st).2
            = redis_get (below_cacheKey g f) st) ∧
  (∀ id st,
     reads_fresh_subtrees (settle_group_clears (deleteGroup id st).2) ∧
     ∀ g f, redis_get (below_cacheKey g f) (deleteGroup id st).2
            = redis_get (below_cacheKey g f) st) ∧
  (∀ depth rejects id groupName parentGroupId st,
     (status (updateGroup depth rejects id groupName parentGroupId st).1 = 200%nat →
      reads_fresh_subtrees
        (settle_group_clears (updateGroup depth rejects id groupName parentGroupId st).2)) ∧
     ∀ g f, redis_get (below_cacheKey g f)
              (updateGroup depth rejects id groupName parentGroupId st).2
            = redis_get (below_cacheKey g f) st) ∧
  (∀ st g f fuel j,
     redis_get (below_cacheKey g f) st = Some j →
     fetchGroupHierarchyBelow fuel g f st = Some (Resolved j, st)).
Proof.
  split_and!.
  - intros name pg st. split; [|intros; apply below_entry_at_response_createGroup].
    apply (reads_fresh_after_clear (insert_group name pg st)).
  - intros id st. split; [|intros; apply below_entry_at_response_deleteGroup].
    apply (reads_fresh_after_clear (delete_group id st)).
  - intros depth rejects id name pg st.
    split; [|intros; apply below_entry_at_response_updateGroup].
    intros Hok. destruct (updateGroup_ok _ _ _ _ _ _ Hok) as (? & ? & stw & _ & -> & _).
    apply (reads_fresh_after_clear stw).
  - intros st g f fuel j Hget.
    rewrite fetchGroupHierarchyBelow_unfold. by apply getOrSetCache_hit.
Qed.

Lemma group_writes_then_subtree_reads_witness :
  let st1 := state_after (fetchGroupHierarchyBelow 5 1 [] demo_st) demo_st in
  reads_fresh_subtrees
    (settle_group_clears (updateGroup 1000 no_fault 2 None (StringId 3) st1).2) ∧
  redis_get (below_cacheKey 1 []) (updateGroup 1000 no_fault 2 None (StringId 3) st1).2
  = redis_get (below_cacheKey 1 []) st1.
Proof.
  intros st1.
  destruct group_writes_then_subtree_reads as (_ & _ & Hupdate & _).
  destruct (Hupdate 1000%nat no_fault 2 None (StringId 3) st1) as [Hfresh Hkeys].
  split; [apply Hfresh; reflexivity | apply Hkeys].
Defined.

Lemma first_group_deleted id st :
  first_group (db (deleteGroup id st).2) (Some id) = None.
Proof.
  unfold deleteGroup. cbn [snd]. rewrite db_redis_del.
  unfold first_group, groups_by_id, delete_group. cbn.
  destruct (head _) as [x|] eqn:Hx; [|done].
  apply head_filter_Some in Hx as [Hid [Hne _]%list_elem_of_filter]. done.
Qed.

(** X13. Once the clears of [deleteGroup(id)] have completed, a subtree
    read of that group resolves with the not-found object, whatever the
    cache held before the delete. At the response of the delete, a live
    entry of that group is still what the read resolves with, and only
    without one does the read give the not-found object. *)
Theorem deleteGroup_then_subtree_not_found id st f fuel :
  (∃ st', fetchGroupHierarchyBelow fuel id f (settle_group_clears (deleteGroup id st).2)
          = Some (Resolved (not_found id), st')) ∧
  (∀ j, redis_get (below_cacheKey id f) st = Some j →
        fetchGroupHierarchyBelow fuel id f (deleteGroup id st).2
        = Some (Resolved j, (deleteGroup id st).2)) ∧
  (redis_get (below_cacheKey id f) st = None →
   ∃ st', fetchGroupHierarchyBelow fuel id f (deleteGroup id st).2
          = Some (Resolved (not_found id), st')).
Proof.
  split_and!.
  - rewrite fetchGroupHierarchyBelow_unfold, getOrSetCache_miss
      by apply (clear_group_caches_below (delete_group id st)).
    rewrite below_compute_absent; [by eexists|].
    rewrite db_settle_group_clears. apply first_group_deleted.
  - intros j Hget. rewrite fetchGroupHierarchyBelow_unfold. apply getOrSetCache_hit.
    by rewrite below_entry_at_response_deleteGroup.
  - intros Hget. rewrite fetchGroupHierarchyBelow_unfold, getOrSetCache_miss
      by by rewrite below_entry_at_response_deleteGroup.
    rewrite below_compute_absent by apply first_group_deleted. by eexists.
Qed.

(** Every level of a traversal of the tables is the tree of a group that
    has a row. *)
Lemma subtree_levels_rows fuel d f id j row :
  subtree fuel d f id = Some j →
  first_group d (Some id) = Some row →
  ∀ m, SubReaches j m →
    ∃ id', get_prop "id" m = Some (JNum id') ∧ is_Some (first_group d (Some id')).
Proof.
  revert id j row. induction fuel as [|fuel IH]; intros id j row H Hrow m Hm;
    destruct (subtree_present _ _ _ _ _ _ H Hrow) as (groups & -> & Hall).
  - inversion Hm as [|n c m' Hc Hreach]; subst; [by exists id|].
    rewrite groups_items_below_obj in Hc.
    destruct (Forall2_elem_of_r _ _ _ _ Hall Hc) as (cr & _ & sub & Hsub & _). done.
  - inversion Hm as [|n c m' Hc Hreach]; subst; [by exists id|].
    rewrite groups_items_below_obj in Hc.
    destruct (Forall2_elem_of_r _ _ _ _ Hall Hc) as (cr & Hcr & sub & Hsub & _ & ->).
    cbn [subtree_rec] in Hsub.
    destruct (child_groups_first _ _ _ Hcr) as [crow Hcrow].
    destruct (subtree_present _ _ _ _ _ _ Hsub Hcrow) as (gs & Hshape & _).
    rewrite Hshape, child_obj_below_obj in Hreach.
    inversion Hreach as [|n c' m'' Hc' Hreach']; subst.
    + exists (g_id cr). split; [done|]. by eexists.
    + rewrite groups_items_below_obj in Hc'.
      eapply (IH _ _ _ Hsub Hcrow). eapply sub_down; [|exact Hreach'].
      by rewrite groups_items_below_obj.
Qed.

(** X14. Once the clears of [deleteGroup(c)] have completed, on tables
    without a cycle, the subtree read of any group that still has a row
    resolves with a tree none of whose levels is group [c]. (At the response
    of the delete a stored tree is still served, see X12.) *)
Theorem deleteGroup_then_group_not_listed (rank : Z → nat) c st g f fuel :
  ranked rank (group_table (db (deleteGroup c st).2)) →
  (rank g ≤ fuel)%nat →
  is_Some (first_group (db (deleteGroup c st).2) (Some g)) →
  ∃ node st', fetchGroupHierarchyBelow fuel g f (settle_group_clears (deleteGroup c st).2)
              = Some (Resolved node, st') ∧
    ∀ m, SubReaches node m → get_prop "id" m ≠ Some (JNum c).
Proof.
  intros Hrank Hfuel [row Hrow].
  assert (Hdb : db (clear_group_caches (delete_group c st)) = db (deleteGroup c st).2)
    by by rewrite db_clear_group_caches.
  rewrite <- Hdb in Hrank, Hrow.
  destruct (reads_fresh_after_clear (delete_group c st) rank g f fuel Hrank Hfuel)
    as (node & st' & Hcall & Hnode).
  exists node, st'. split; [exact Hcall|].
  intros m Hm Hid.
  destruct (subtree_levels_rows _ _ _ _ _ _ Hnode Hrow m Hm) as (id' & Hid' & Hsome).
  assert (id' = c) as -> by congruence.
  rewrite Hdb, first_group_deleted in Hsome. by destruct Hsome.
Qed.

Lemma deleteGroup_then_group_not_listed_witness :
  let st1 := state_after (fetchGroupHierarchyBelow 5 1 [] demo_st) demo_st in
  ∃ node st', fetchGroupHierarchyBelow 5 1 [] (settle_group_clears (deleteGroup 2 st1).2)
              = Some (Resolved node, st') ∧
    ∀ m, SubReaches node m → get_prop "id" m ≠ Some (JNum 2).
Proof.
  intros st1.
  apply (deleteGroup_then_group_not_listed demo_rank 2 st1 1 [] 5).
  - intros g p Hin Hp. vm_compute in Hin.
    repeat (apply elem_of_cons in Hin as [->|Hin]); cbn in Hp; simplify_eq.
    by apply elem_of_nil in Hin.
  - cbn. lia.
  - by eexists.
Defined.

(** ** What the traversals leave alone, and when they do not return *)

(** X15. The ancestor traversal has no cycle guard: when the parent
    pointers from a group run in a cycle (a set of ids, each with a row
    whose parent row is in the set), [fetchparentGroupRecursive] returns for
    no amount of fuel, and neither does a [fetchGroupHierarchyAbove] that
    misses the cache. *)
Theorem fetchGroupHierarchyAbove_cycle_never_returns (P : Z → Prop) g st :
  (∀ id, P id → ∃ row prow,
     first_group (db st) (Some id) = Some row ∧
     first_group (db st) (g_parentGroupId row) = Some prow ∧ P (g_id prow)) →
  P g →
  redis_get (above_cacheKey g) st = None →
  ∀ fuel, fetchparentGroupRecursive fuel g st = None ∧
          fetchGroupHierarchyAbove fuel g st = None.
Proof.
  intros Hcycle Hg Hmiss fuel.
  assert (Hrec : ∀ fuel id st0, db st0 = db st → P id →
                   fetchparentGroupRecursive fuel id st0 = None).
  { clear fuel. intros fuel. induction fuel as [|fuel IH]; intros id st0 Hdb Hid; [done|].
    destruct (Hcycle id Hid) as (row & prow & Hrow & Hparent & Hnext).
    rewrite fetchparentGroupRecursive_S, Hdb, Hrow, Hparent.
    by rewrite IH. }
  split; [by apply Hrec|].
  unfold fetchGroupHierarchyAbove. rewrite getOrSetCache_miss by done.
  destruct (Hcycle g Hg) as (row & prow & Hrow & _).
  unfold above_compute, select_group_by_id. fold (first_group (db st) (Some g)).
  rewrite Hrow. by rewrite Hrec.
Qed.

Lemma fetchGroupHierarchyAbove_cycle_never_returns_witness :
  fetchparentGroupRecursive 50 1 (mkState cyclic_db ∅ 100 0) = None ∧
  fetchGroupHierarchyAbove 50 1 (mkState cyclic_db ∅ 100 0) = None.
Proof.
  apply (fetchGroupHierarchyAbove_cycle_never_returns (λ id, id = 1 ∨ id = 2)).
  - intros id [->| ->].
    + exists (mkGroupRow 1 "A" (Some 2) 0), (mkGroupRow 2 "B" (Some 1) 0).
      split_and!; [reflexivity | reflexivity | by right].
    + exists (mkGroupRow 2 "B" (Some 1) 0), (mkGroupRow 1 "A" (Some 2) 0).
      split_and!; [reflexivity | reflexivity | by left].
  - by left.
  - reflexivity.
Defined.

Lemma fetchparentGroupRecursive_queries fuel id st pushed st' :
  fetchparentGroupRecursive fuel id st = Some (pushed, st') →
  (queries st ≤ queries st')%nat.
Proof.
  revert id st pushed st'. induction fuel as [|fuel IH]; intros id st pushed st' H; [done|].
  rewrite fetchparentGroupRecursive_S in H.
  destruct (first_group _ _) as [row|]; [|simplify_eq; cbn; lia].
  destruct (first_group _ _) as [prow|]; [|simplify_eq; cbn; lia].
  destruct (fetchparentGroupRecursive _ _ _) as [[pp st3]|] eqn:Hrec; [|done].
  simplify_eq. apply IH in Hrec. cbn in Hrec. lia.
Qed.

Lemma above_compute_queries fuel g st out st' :
  above_compute fuel g st = Some (out, st') → (queries st ≤ queries st')%nat.
Proof.
  unfold above_compute, select_group_by_id. fold (first_group (db st) (Some g)).
  destruct (first_group _ _) as [row|]; [|intros; simplify_eq; cbn; lia].
  destruct (fetchparentGroupRecursive _ _ _) as [[pp st2]|] eqn:Hrec; [|done].
  intros; simplify_eq. apply fetchparentGroupRecursive_queries in Hrec. cbn in Hrec. lia.
Qed.

(** X16. [fetchGroupHierarchyAbove] never writes the tables and touches
    no Redis key but its own: a call that returns leaves the tables and the
    clock as they were, makes no query on a hit, and leaves every other key
    as it was. *)
Theorem fetchGroupHierarchyAbove_frame fuel g st out st' :
  fetchGroupHierarchyAbove fuel g st = Some (out, st') →
  db st' = db st ∧ clock st' = clock st ∧ (queries st ≤ queries st')%nat ∧
  (is_Some (redis_get (above_cacheKey g) st) → st' = st) ∧
  ∀ key, key ≠ above_cacheKey g → redis st' !! key = redis st !! key.
Proof.
  unfold fetchGroupHierarchyAbove. intros Hcall.
  destruct (redis_get (above_cacheKey g) st) as [data|] eqn:Hget.
  - rewrite (getOrSetCache_hit _ _ _ _ Hget) in Hcall. simplify_eq.
    split_and!; [done | done | lia | done | done].
  - rewrite getOrSetCache_miss in Hcall by done.
    destruct (above_compute fuel g st) as [[o st1]|] eqn:Hc; [|done].
    pose proof (above_compute_queries _ _ _ _ _ Hc) as Hq.
    apply above_compute_resolves in Hc as [[v ->] (Hdb & Hredis & Hclock)].
    simplify_eq. split_and!; [done | done | done | by intros [? ?] |].
    intros key Hne. unfold redis_setex. cbn. by rewrite lookup_insert_ne, Hredis.
Qed.

Lemma fetchGroupHierarchyAbove_frame_witness :
  let st' := state_after (fetchGroupHierarchyAbove 5 2 demo_st) demo_st in
  db st' = db demo_st ∧ clock st' = clock demo_st.
Proof.
  intros st'.
  destruct (fetchGroupHierarchyAbove_frame 5 2 demo_st
              (Resolved (above_obj 2 "Child" [above_obj 1 "Root" []])) st' eq_refl)
    as (Hdb & Hclock & _).
  split; [exact Hdb | exact Hclock].
Defined.

Lemma below_frame_refl st : below_frame st st.
Proof. by split_and!. Qed.

Lemma below_frame_trans st1 st2 st3 :
  below_frame st1 st2 → below_frame st2 st3 → below_frame st1 st3.
Proof.
  intros (Hd & Hc & Hq & Hk) (Hd' & Hc' & Hq' & Hk').
  split_and!; [congruence | congruence | lia |].
  intros key Hp. by rewrite Hk', Hk.
Qed.

Lemma below_frame_count st : below_frame st (count_query st).
Proof. split_and!; [done | done | cbn; lia | done]. Qed.

Lemma below_frame_setex g f v st :
  below_frame st (redis_setex (below_cacheKey g f) DEFAULT_EXPIRATION v st).
Proof.
  split_and!; [done | done | done |]. intros key Hp. unfold redis_setex. cbn.
  apply lookup_insert_ne. intros <-. by rewrite below_key_prefix in Hp.
Qed.

Lemma child_loop_frame rec cs acc st out st' :
  (∀ id st0 o st1, rec id st0 = Some (o, st1) → below_frame st0 st1) →
  child_loop rec cs acc st = Some (out, st') → below_frame st st'.
Proof.
  intros Hrec. revert acc st. induction cs as [|c cs IH]; intros acc st H.
  - cbn in H. simplify_eq. apply below_frame_refl.
  - cbn in H. destruct (rec (g_id c) st) as [[[j|e] st1]|] eqn:Hc; [| |done].
    + apply Hrec in Hc. destruct (has_error j) as [[|]|]; simplify_eq; [done| |done].
      eapply below_frame_trans; [exact Hc|]. by eapply IH.
    + apply Hrec in Hc. by simplify_eq.
Qed.

(** X17. [fetchGroupHierarchyBelow] never writes the tables and touches no
    Redis key outside the subtree key space: a call that returns leaves the
    tables and the clock as they were and every key that does not start
    with [groups_below_] as it was. *)
Theorem fetchGroupHierarchyBelow_frame fuel g f st out st' :
  fetchGroupHierarchyBelow fuel g f st = Some (out, st') →
  db st' = db st ∧ clock st' = clock st ∧ (queries st ≤ queries st')%nat ∧
  ∀ key, String.prefix "groups_below_" key = false → redis st' !! key = redis st !! key.
Proof.
  change (fetchGroupHierarchyBelow fuel g f st = Some (out, st') → below_frame st st').
  revert g st out st'.
  assert (Hstep : ∀ rec,
            (∀ id st0 o st1, rec id st0 = Some (o, st1) → below_frame st0 st1) →
            ∀ g st out st',
              getOrSetCache (below_cacheKey g f) (below_compute rec g f) st = Some (out, st') →
              below_frame st st').
  { intros rec Hrec g st out st' H.
    destruct (redis_get (below_cacheKey g f) st) as [data|] eqn:Hget.
    - rewrite (getOrSetCache_hit _ _ _ _ Hget) in H. simplify_eq. apply below_frame_refl.
    - rewrite getOrSetCache_miss in H by done.
      assert (Hcompute : ∀ o st1, below_compute rec g f st = Some (o, st1) →
                                  below_frame st st1).
      { intros o st1 Hc.
        destruct (first_group (db st) (Some g)) as [row|] eqn:Hrow.
        - rewrite (below_compute_present _ _ _ _ _ Hrow) in Hc.
          destruct (child_loop _ _ _ _) as [[o' st4]|] eqn:Hloop; [|done].
          apply (child_loop_frame _ _ _ _ _ _ Hrec) in Hloop.
          assert (below_frame st st4).
          { eapply below_frame_trans; [|exact Hloop].
            do 2 (eapply below_frame_trans; [|apply below_frame_count]).
            apply below_frame_count. }
          destruct o' as [[e|groups]|e]; by simplify_eq.
        - rewrite below_compute_absent in Hc by done. simplify_eq.
          apply below_frame_count. }
      destruct (below_compute rec g f st) as [[[v|e] st1]|] eqn:Hc; [| |done].
      + simplify_eq. eapply below_frame_trans; [by eapply Hcompute|].
        apply below_frame_setex.
      + simplify_eq. by eapply Hcompute. }
  induction fuel as [|fuel IH]; intros g st out st';
    rewrite fetchGroupHierarchyBelow_unfold; apply Hstep.
  - by intros ? ? ? ? ?.
  - intros id st0 o st1. apply IH.
Qed.

Lemma fetchGroupHierarchyBelow_frame_witness :
  let st' := state_after (fetchGroupHierarchyBelow 5 1 [] demo_st) demo_st in
  db st' = db demo_st ∧ clock st' = clock demo_st.
Proof.
  intros st'.
  destruct (fetchGroupHierarchyBelow_frame 5 1 [] demo_st
              (Resolved (below_obj 1 "Root" []
                 [below_obj 2 "Child"
                    (map person_obj [mkPersonRow 7 "Alice" "A" "eng" (Some 2);
                                     mkPersonRow 8 "Bob" "B" "sales" (Some 2)]) []]))
              st' eq_refl) as (Hdb & Hclock & _).
  split; [exact Hdb | exact Hclock].
Defined.

(** ** getGroups *)



Lemma subtree_absent fuel d f id :
  first_group d (Some id) = None → subtree fuel d f id = Some (not_found id).
Proof. intros H. rewrite subtree_unfold. unfold subtree_step. by rewrite H. Qed.

(** X19. On tables without a cycle and a cache that agrees with them,
    [getGroups] with an id answers 404 with the not-found message when the
    group has no row, and 200 with a tree whose levels hold the matching
    persons of their groups when it has one. *)
Theorem getGroups_by_id_status (rank : Z → nat) fuel id jobTitle_q firstName_q st :
  ranked rank (group_table (db st)) →
  coherent (route_filterCriteria jobTitle_q firstName_q) st →
  (rank id ≤ fuel)%nat →
  ∃ r st', getGroups_by_id fuel id jobTitle_q firstName_q st = Some (r, st') ∧
    (first_group (db st) (Some id) = None → r = Res 404 (not_found id)) ∧
    (is_Some (first_group (db st) (Some id)) →
     status r = 200%nat ∧
     ∀ m, SubReaches (body r) m →
          LevelOK (db st) (route_filterCriteria jobTitle_q firstName_q) m).
Proof.
  intros Hrank Hco Hfuel. set (f := route_filterCriteria jobTitle_q firstName_q) in *.
  destruct (subtree_returns rank _ f Hrank fuel id Hfuel) as [node Hnode].
  destruct (fetchGroupHierarchyBelow_refines _ f fuel id node st eq_refl Hco Hnode)
    as (st' & Hcall & _).
  unfold getGroups_by_id. fold f. rewrite Hcall.
  destruct (first_group (db st) (Some id)) as [row|] eqn:Hrow.
  - destruct (subtree_present _ _ _ _ _ _ Hnode Hrow) as (groups & Hshape & _).
    pose proof (subtree_levels _ _ _ _ _ _ Hnode Hrow) as Hlevels.
    rewrite Hshape in *. rewrite has_error_below_obj.
    eexists _, _. split; [reflexivity|]. split; [done|]. intros _. by split.
  - rewrite (subtree_absent fuel _ f id Hrow) in Hnode. simplify_eq.
    rewrite has_error_not_found.
    eexists _, _. split; [reflexivity|]. split; [done|]. by intros [? ?].
Qed.

Lemma getGroups_by_id_status_witness :
  ∃ r st', getGroups_by_id 5 9 (Some "eng") None demo_st = Some (r, st') ∧
    (first_group (db demo_st) (Some 9) = None → r = Res 404 (not_found 9)).
Proof.
  destruct (getGroups_by_id_status demo_rank 5 9 (Some "eng") None demo_st)
    as (r & st' & Hcall & Habsent & _).
  - exact demo_ranked.
  - apply coherent_empty.
  - cbn. lia.
  - exists r, st'. split; [exact Hcall | exact Habsent].
Defined.

Lemma getGroups_all_miss st :
  redis_get all_groups_cacheKey st = None →
  (group_table (db st) = [] →
   getGroups_all st
   = Some (Res 500 (error_obj "Internal server error."), count_query st)) ∧
  (group_table (db st) ≠ [] →
   getGroups_all st
   = Some (Res 200 (JArr (map group_row_obj (group_table (db st)))),
           redis_setex all_groups_cacheKey DEFAULT_EXPIRATION
             (JArr (map group_row_obj (group_table (db st)))) (count_query st))).
Proof.
  intros Hmiss. unfold getGroups_all. rewrite getOrSetCache_miss by done.
  unfold all_groups_compute, select_all_groups.
  split; intros Htab.
  - by rewrite Htab.
  - destruct (group_table (db st)); [done|]. done.
Qed.

(** X20. [getGroups] without an id, on a miss of [all_groups]: with an
    empty group table the callback throws, the answer is 500 and nothing is
    stored; otherwise the answer is 200 with one object per row, in table
    order, stored under [all_groups] for the default expiry. *)
Theorem getGroups_all_on_miss st :
  redis_get all_groups_cacheKey st = None →
  (group_table (db st) = [] →
   getGroups_all st
   = Some (Res 500 (error_obj "Internal server error."), count_query st)) ∧
  (group_table (db st) ≠ [] →
   getGroups_all st
   = Some (Res 200 (JArr (map group_row_obj (group_table (db st)))),
           redis_setex all_groups_cacheKey DEFAULT_EXPIRATION
             (JArr (map group_row_obj (group_table (db st)))) (count_query st))).
Proof. apply getGroups_all_miss. Qed.

Lemma getGroups_all_on_miss_witness :
  getGroups_all (mkState (mkDatabase [] []) ∅ 100 0)
  = Some (Res 500 (error_obj "Internal server error."),
          count_query (mkState (mkDatabase [] []) ∅ 100 0)).
Proof.
  destruct (getGroups_all_on_miss (mkState (mkDatabase [] []) ∅ 100 0)) as [H _];
    [vm_compute; reflexivity|].
  apply H. reflexivity.
Defined.

(** X21. After [createGroup] the list of all groups is not served from the
    cache: the next [getGroups] without an id answers 200 with the rows of
    the table, the row of the new group, with the name and the parent that
    were sent, among them. *)
Theorem createGroup_then_getGroups_all groupName parentGroupId st :
  ∃ new st',
    g_groupName new = groupName ∧ g_parentGroupId new = parentGroupId ∧
    getGroups_all (createGroup groupName parentGroupId st).2
    = Some (Res 200 (JArr (map group_row_obj (group_table (db st) ++ [new])%list)), st').
Proof.
  destruct (getGroups_all_miss (createGroup groupName parentGroupId st).2) as [_ H].
  - unfold createGroup. cbn [snd]. rewrite redis_get_del.
    case_decide as Hin; [done|]. exfalso. apply Hin. unfold all_groups_cacheKey. set_solver.
  - eexists (mkGroupRow _ groupName parentGroupId _), _.
    split; [done|]. split; [done|]. rewrite H.
    + unfold createGroup. cbn [snd]. rewrite db_redis_del. reflexivity.
    + unfold createGroup. cbn [snd]. rewrite db_redis_del. cbn.
      by destruct (group_table (db st)).
Qed.

(** ** The person controller *)

Lemma person_prefix_hierarchy_keys g f :
  String.prefix "person_id_" (above_cacheKey g) = false ∧
  String.prefix "person_id_" (below_cacheKey g f) = false ∧
  (above_cacheKey g ∉ ["all_persons"]) ∧ (below_cacheKey g f ∉ ["all_persons"]).
Proof.
  unfold above_cacheKey, below_cacheKey.
  generalize (pretty g +:+ "}"), (pretty g +:+ "_" +:+ JSON_stringify f). intros s1 s2.
  split_and!; [reflexivity | reflexivity | |];
    intros H; apply list_elem_of_singleton in H; vm_compute in H; discriminate H.
Qed.

Lemma person_key_not_all_persons id : person_cacheKey id ∉ ["all_persons"].
Proof.
  unfold person_cacheKey. intros H. apply list_elem_of_singleton in H.
  vm_compute in H. discriminate H.
Qed.

Lemma glob_free_app s t : glob_free (s +:+ t) = glob_free s && glob_free t.
Proof.
  induction s as [|c s IH]; [done|]. rewrite append_cons. cbn [glob_free].
  by rewrite IH, andb_assoc.
Qed.

Lemma glob_free_person_key id : glob_free id = true → glob_free (person_cacheKey id) = true.
Proof. intros H. unfold person_cacheKey. by rewrite glob_free_app, H. Qed.

(** The clear of a person write reaches only keys that start with
    [person_id_], whatever characters the id holds. *)
Lemma redis_get_person_clear id key st :
  String.prefix "person_id_" key = false →
  redis_get key (settle_person_clear id st) = redis_get key st.
Proof.
  intros Hp. unfold settle_person_clear, person_cacheKey.
  by apply redis_get_clearKeys_outside.
Qed.

Lemma db_settle_person_clear id st : db (settle_person_clear id st) = db st.
Proof. apply db_clearKeys. Qed.

Section PersonProperties.
Variable sql_number : string → option Z.

(** At its response [updatePerson] has removed no key but [all_persons]. *)
Lemma updatePerson_redis rejects id fn ln jt gid st key :
  key ∉ ["all_persons"] →
  redis_get key (updatePerson sql_number rejects id fn ln jt gid st).2 = redis_get key st.
Proof.
  intros Hne. unfold updatePerson, select_person_by_id.
  destruct (rejects 0%nat); [done|].
  destruct (head _) as [existing|]; [|done].
  destruct gid; cbn;
    repeat (destruct (truthy _); cbn); try done;
    try destruct (negb _); cbn;
    try destruct (rejects 1%nat); cbn; try done;
    try destruct (rejects 2%nat); cbn; try done;
    try destruct (rejects 3%nat); cbn; try done;
    by rewrite redis_get_del_other.
Qed.

Lemma deletePerson_redis id st key :
  key ∉ ["all_persons"] →
  redis_get key (deletePerson sql_number id st).2 = redis_get key st.
Proof. intros Hne. unfold deletePerson. cbn [snd]. by rewrite redis_get_del_other. Qed.

(** X22. No person write removes a hierarchy entry: after [createPerson],
    [updatePerson] and [deletePerson], at the response and once the clear
    of the person key has completed, every ancestor key and every subtree
    key reads as before, so a cached subtree keeps being served without the
    change until it expires or a group write clears it. *)
Theorem person_writes_keep_hierarchy_entries st g f :
  (∀ firstName_b lastName_b jobTitle_b groupId,
     let st' := (createPerson firstName_b lastName_b jobTitle_b groupId st).2 in
     redis_get (above_cacheKey g) st' = redis_get (above_cacheKey g) st ∧
     redis_get (below_cacheKey g f) st' = redis_get (below_cacheKey g f) st) ∧
  (∀ rejects id firstName_b lastName_b jobTitle_b groupId,
     let st' := (updatePerson sql_number rejects id firstName_b lastName_b jobTitle_b
                   groupId st).2 in
     redis_get (above_cacheKey g) st' = redis_get (above_cacheKey g) st ∧
     redis_get (below_cacheKey g f) st' = redis_get (below_cacheKey g f) st ∧
     redis_get (above_cacheKey g) (settle_person_clear id st') = redis_get (above_cacheKey g) st ∧
     redis_get (below_cacheKey g f) (settle_person_clear id st')
       = redis_get (below_cacheKey g f) st) ∧
  (∀ id,
     let st' := (deletePerson sql_number id st).2 in
     redis_get (above_cacheKey g) st' = redis_get (above_cacheKey g) st ∧
     redis_get (below_cacheKey g f) st' = redis_get (below_cacheKey g f) st ∧
     redis_get (above_cacheKey g) (settle_person_clear id st') = redis_get (above_cacheKey g) st ∧
     redis_get (below_cacheKey g f) (settle_person_clear id st')
       = redis_get (below_cacheKey g f) st).
Proof.
  destruct (person_prefix_hierarchy_keys g f) as (Hpa & Hpb & Ha & Hb).
  split_and!.
  - intros fn ln jt gid st'. unfold st', createPerson. cbn [snd].
    by rewrite !redis_get_del_other.
  - intros rejects id fn ln jt gid st'. unfold st'.
    rewrite !redis_get_person_clear by done. by rewrite !updatePerson_redis.
  - intros id st'. unfold st'.
    rewrite !redis_get_person_clear by done. by rewrite !deletePerson_redis.
Qed.

Lemma redis_get_deletePerson_prefix id rest st :
  glob_free id = true →
  redis_get (person_cacheKey (id +:+ rest))
    (settle_person_clear id (deletePerson sql_number id st).2) = None.
Proof.
  intros Hfree. unfold settle_person_clear.
  rewrite redis_get_clearKeys by by apply glob_free_person_key.
  unfold person_cacheKey. by rewrite <- append_assoc, prefix_append.
Qed.

(** X23. [deletePerson] clears by prefix, and answers before the clear has
    completed. For an id without glob characters: at the response the entry
    of every person whose id starts with the characters of [id] still reads
    as before the delete; once the clear has completed each of them reads
    as null, not only the entry of that person. *)
Theorem deletePerson_clears_by_prefix id rest st :
  glob_free id = true →
  redis_get (person_cacheKey (id +:+ rest)) (deletePerson sql_number id st).2
  = redis_get (person_cacheKey (id +:+ rest)) st ∧
  redis_get (person_cacheKey (id +:+ rest))
    (settle_person_clear id (deletePerson sql_number id st).2) = None.
Proof.
  intros Hfree. split; [|by apply redis_get_deletePerson_prefix].
  apply deletePerson_redis, person_key_not_all_persons.
Qed.

Lemma persons_by_id_deleted id st :
  persons_by_id (db (deletePerson sql_number id st).2) (sql_number id) = [].
Proof.
  unfold deletePerson. cbn [snd]. rewrite db_redis_del. cbn.
  unfold persons_by_id. destruct (sql_number id) as [n|]; [|done]. cbn.
  destruct (filter _ _) as [|x l] eqn:Hf; [done|].
  assert (Hx : x ∈ filter (λ p, p_id p = n)
                 (filter (λ p, Some (p_id p) ≠ Some n) (person_table (db st))))
    by (rewrite Hf; apply list_elem_of_here).
  apply list_elem_of_filter in Hx as [Hid [Hne _]%list_elem_of_filter]. congruence.
Qed.

Lemma append_nil_r s : s +:+ "" = s.
Proof. induction s as [|c s IH]; [done|]. by rewrite append_cons, IH. Qed.

(** X24. Once the clear of [deletePerson(id)] has completed, for an id
    without glob characters, a [getPersons] with that id is not served from
    the cache and finds no row: the callback throws and the answer is 500,
    with nothing stored. At the response of the delete a live entry of the
    person is still served, with 200. *)
Theorem deletePerson_then_getPersons id st :
  id ≠ "" →
  glob_free id = true →
  let st1 := (deletePerson sql_number id st).2 in
  getPersons sql_number (Some id) (settle_person_clear id st1)
  = Some (Res 500 (error_obj "Internal server error"),
          count_query (settle_person_clear id st1)) ∧
  (∀ data, redis_get (person_cacheKey id) st = Some data →
     getPersons sql_number (Some id) st1 = Some (Res 200 data, st1)).
Proof.
  intros Hid Hfree st1. unfold getPersons. cbn [truthy default from_option].
  unfold Datatypes.id.
  destruct (String.eqb_spec id ""); [done|]. cbn [negb]. split.
  - assert (Hmiss : redis_get (person_cacheKey id) (settle_person_clear id st1) = None).
    { pose proof (redis_get_deletePerson_prefix id "" st Hfree) as H.
      by rewrite append_nil_r in H. }
    rewrite getOrSetCache_miss by done.
    unfold person_compute, select_person_by_id.
    rewrite db_settle_person_clear. unfold st1 at 1.
    by rewrite persons_by_id_deleted.
  - intros data Hget. rewrite (getOrSetCache_hit _ _ _ data); [done|].
    unfold st1. by rewrite deletePerson_redis by apply person_key_not_all_persons.
Qed.

End PersonProperties.

Lemma deletePerson_clears_by_prefix_witness :
  redis_get (person_cacheKey ("7" +:+ "1")) (deletePerson (λ _, Some 7) "7" demo_st).2
  = redis_get (person_cacheKey ("7" +:+ "1")) demo_st ∧
  redis_get (person_cacheKey ("7" +:+ "1"))
    (settle_person_clear "7" (deletePerson (λ _, Some 7) "7" demo_st).2) = None.
Proof.
  apply (deletePerson_clears_by_prefix (λ _, Some 7) "7" "1" demo_st). reflexivity.
Defined.

Lemma deletePerson_then_getPersons_witness :
  let st1 := (deletePerson (λ _, Some 7) "7" demo_st).2 in
  getPersons (λ _, Some 7) (Some "7") (settle_person_clear "7" st1)
  = Some (Res 500 (error_obj "Internal server error"),
          count_query (settle_person_clear "7" st1)) ∧
  (∀ data, redis_get (person_cacheKey "7") demo_st = Some data →
     getPersons (λ _, Some 7) (Some "7") st1 = Some (Res 200 data, st1)).
Proof.
  apply (deletePerson_then_getPersons (λ _, Some 7) "7" demo_st);
    [discriminate | reflexivity].
Defined.

Section PersonReads.
Variable sql_number : string → option Z.

(** X25. [getPersons] with an id, on a miss of the person key: when no row
    matches, the callback throws, the answer is 500 and nothing is stored;
    when rows match, the answer is 200 with them, stored under
    [person_id_<id>] for the default expiry. *)
Theorem getPersons_by_id_on_miss id st :
  id ≠ "" →
  redis_get (person_cacheKey id) st = None →
  (persons_by_id (db st) (sql_number id) = [] →
   getPersons sql_number (Some id) st
   = Some (Res 500 (error_obj "Internal server error"), count_query st)) ∧
  (persons_by_id (db st) (sql_number id) ≠ [] →
   getPersons sql_number (Some id) st
   = Some (Res 200 (JArr (map person_row_obj (persons_by_id (db st) (sql_number id)))),
           redis_setex (person_cacheKey id) DEFAULT_EXPIRATION
             (JArr (map person_row_obj (persons_by_id (db st) (sql_number id))))
             (count_query st))).
Proof.
  intros Hid Hmiss. unfold getPersons. cbn [truthy default from_option]. unfold Datatypes.id.
  destruct (String.eqb_spec id ""); [done|]. cbn [negb].
  rewrite getOrSetCache_miss by done.
  unfold person_compute, select_person_by_id.
  split; intros Hrows.
  - by rewrite Hrows.
  - by destruct (persons_by_id (db st) (sql_number id)).
Qed.

(** X26. [getGroupsAbove]: 404 when the person has no row, 404 when the
    person has no group, and, when the group of the person has no row and
    its ancestor key misses, 200 with the not-found object as the body,
    which is also stored under the ancestor key. *)
Theorem getGroupsAbove_answers fuel id st :
  (persons_by_id (db st) (sql_number id) = [] →
   getGroupsAbove sql_number fuel id st
   = Some (Res 404 (error_obj "Person not found."), count_query st)) ∧
  (∀ person, head (persons_by_id (db st) (sql_number id)) = Some person →
     p_groupId person = None →
     getGroupsAbove sql_number fuel id st
     = Some (Res 404 (error_obj "No group associated with the person."), count_query st)) ∧
  (∀ person groupId, head (persons_by_id (db st) (sql_number id)) = Some person →
     p_groupId person = Some groupId →
     first_group (db st) (Some groupId) = None →
     redis_get (above_cacheKey groupId) st = None →
     getGroupsAbove sql_number fuel id st
     = Some (Res 200 (not_found groupId),
             redis_setex (above_cacheKey groupId) DEFAULT_EXPIRATION (not_found groupId)
               (count_query (count_query st)))).
Proof.
  unfold getGroupsAbove, select_person_by_id. split_and!.
  - by intros ->.
  - by intros person -> ->.
  - intros person groupId -> -> Habsent Hmiss.
    unfold fetchGroupHierarchyAbove.
    rewrite getOrSetCache_miss by done.
    by rewrite above_compute_absent.
Qed.

End PersonReads.

Lemma getGroupsAbove_answers_witness :
  let st := mkState (mkDatabase [] [mkPersonRow 7 "Alice" "A" "eng" (Some 4)]) ∅ 100 0 in
  getGroupsAbove (λ _, Some 7) 5 "7" st
  = Some (Res 200 (not_found 4),
          redis_setex (above_cacheKey 4) DEFAULT_EXPIRATION (not_found 4)
            (count_query (count_query st))).
Proof.
  intros st.
  destruct (getGroupsAbove_answers (λ _, Some 7) 5 "7" st) as (_ & _ & H).
  apply (H (mkPersonRow 7 "Alice" "A" "eng" (Some 4)) 4); reflexivity.
Defined.

Lemma getPersons_by_id_on_miss_witness :
  getPersons (λ _, Some 9) (Some "9") demo_st
  = Some (Res 500 (error_obj "Internal server error"), count_query demo_st).
Proof.
  destruct (getPersons_by_id_on_miss (λ _, Some 9) "9" demo_st) as [H _];
    [discriminate | reflexivity |].
  apply H. reflexivity.
Defined.

Lemma touch_group_shape id st :
  map group_shape (group_table (db (touch_group id st)))
    = map group_shape (group_table (db st)) ∧
  person_table (db (touch_group id st)) = person_table (db st) ∧
  redis (touch_group id st) = redis st ∧ clock (touch_group id st) = clock st.
Proof.
  unfold touch_group, update_group_where_id. cbn. split_and!; try done.
  rewrite map_map. apply map_ext. intros r. by case_bool_decide.
Qed.

Section PersonUpdate.
Variable sql_number : string → option Z.

Lemma assign_person_id fields p :
  p_id (foldl (λ p a, assign_person a p) p fields) = p_id p.
Proof.
  revert p. induction fields as [|a fields IH]; intros p; [done|].
  cbn. rewrite IH. by destruct a.
Qed.

(** X27. [updatePerson] leaves the group hierarchy as it is: whatever the
    request and whatever statements the server rejects, the ids, names and
    parents of the group rows (only their [updatedAt] may change) and the
    ids of the person rows are the same afterwards. An answer other than
    200 leaves Redis and the person table unchanged, and the group table
    too unless it is the 500 of an UPDATE rejected after an [updatedAt] was
    written. The answer is 404 exactly when the SELECT completes and no
    person row matches. *)
Theorem updatePerson_keeps_hierarchy rejects id firstName_b lastName_b jobTitle_b groupId st :
  let r := updatePerson sql_number rejects id firstName_b lastName_b jobTitle_b groupId st in
  map group_shape (group_table (db r.2)) = map group_shape (group_table (db st)) ∧
  map p_id (person_table (db r.2)) = map p_id (person_table (db st)) ∧
  (status r.1 ≠ 200%nat →
   redis r.2 = redis st ∧ person_table (db r.2) = person_table (db st) ∧
   (status r.1 ≠ 500%nat ∨ (rejects 2%nat = false ∧ rejects 3%nat = false) →
    db r.2 = db st)) ∧
  (status r.1 = 404%nat
   ↔ rejects 0%nat = false ∧ persons_by_id (db st) (sql_number id) = []).
Proof.
  intros r. unfold r, updatePerson, select_person_by_id.
  destruct (rejects 0%nat) eqn:H0.
  { cbn. split_and!; [done | done | done |]. split; [discriminate | by intros [? _]]. }
  destruct (persons_by_id (db st) (sql_number id)) as [|existing rest] eqn:Hrows;
    cbn [head].
  { cbn. by split_and!. }
  assert (H404 : ∀ x : Response, status x ≠ 404%nat →
            (status x = 404%nat ↔ false = false ∧ existing :: rest = []))
    by (intros x Hx; split; [done | by intros [_ ?]]).
  assert (Hids : ∀ fields T,
            map p_id (map (λ p, if bool_decide (Some (p_id p) = sql_number id)
                                then foldl (λ p a, assign_person a p) p fields else p) T)
            = map p_id T).
  { intros fields T. rewrite map_map. apply map_ext. intros p.
    case_bool_decide; [apply assign_person_id | done]. }
  destruct groupId as [| |n|n]; cbn [truthy_id sql_param];
    try destruct (negb (n =? 0));
    try destruct (rejects 1%nat); try destruct (rejects 2%nat); try destruct (rejects 3%nat);
    destruct (truthy firstName_b), (truthy lastName_b), (truthy jobTitle_b);
    cbn [app List.length Nat.eqb fst snd];
    cbn [db redis_del set_redis update_person_where_id count_query
      set_persons group_table person_table];
    (split_and!;
     [ try done; by rewrite ?(proj1 (touch_group_shape _ _))
     | try done; rewrite ?Hids;
       by rewrite ?(proj1 (proj2 (touch_group_shape _ _)))
     | first
         [ by (intros Hs; destruct Hs)
         | intros _; split_and!;
           [ done
           | by rewrite ?(proj1 (proj2 (touch_group_shape _ _)))
           | intros [Hs|[H2 H3]]; first [done | by destruct Hs] ] ]
     | apply H404; cbn; done ]).
Qed.

(** The 500 of a final UPDATE that the server rejects comes after the two
    [updatedAt] writes, which stay in the tables. *)
Example updatePerson_partial_write :
  let answer := updatePerson (λ _, Some 7) (λ k, Nat.eqb k 3) "7" None None None
                  (NumberId 3) demo_st in
  answer.1 = Res 500 (error_obj "Internal server error") ∧
  first_group (db demo_st) (Some 2) = Some (mkGroupRow 2 "Child" (Some 1) 0) ∧
  first_group (db answer.2) (Some 2) = Some (mkGroupRow 2 "Child" (Some 1) 100) ∧
  first_group (db answer.2) (Some 3) = Some (mkGroupRow 3 "Other" None 100) ∧
  person_table (db answer.2) = person_table (db demo_st).
Proof. vm_compute. done. Qed.
End PersonUpdate.
